(** * LeetCode 37, Sudoku solver: backtracking with bit masks

    A shallow embedding of [src/dsa/solutions/backtracking/0037_sudoku_solver.cpp]
    (class [Solution]: [boxIndex], [init], [dfs], [solveSudoku]) and the
    properties of it that the specification states.

    Conventions of the embedding.
    - The board, a [std::vector<std::vector<char>>] passed by reference, is a
      [list (list ascii)] that every operation takes and gives back.
    - The three [int xxxMask[9]] members are lists of [Z], an [int] being
      the integer it denotes in two's complement.  The code only applies
      [|], [&], [~] and [1 << d] to them; on values of the [int] range these
      agree with [Z.lor], [Z.land], [Z.lnot] and [Z.shiftl] and never leave
      the range, so no wrap-around appears.
    - Subscripts, loop counters and [idx] are non-negative [int]s not
      exceeding 81; they are [nat].
    - An out-of-range subscript and a shift by a negative amount or by 32
      or more are undefined behaviour in C++; the embedding returns [Undef]
      there.
    - [dfs] is recursive on [idx + 1]; the embedding recurses on a fuel
      counter and [dfs] supplies [S (empties.size() - idx)], which is shown to
      be always enough. *)

From Stdlib Require Import ZArith Ascii List Lia Bool Permutation.
From stdpp Require Import base tactics option list numbers strings.

Local Open Scope nat_scope.

(** ** Results of fallible computations *)

Inductive res (A : Type) : Type :=
| Ret (a : A)
| Undef
| NoFuel.
Arguments Ret {A} a.
Arguments Undef {A}.
Arguments NoFuel {A}.

#[global] Instance res_ret : MRet res := @Ret.
#[global] Instance res_bind : MBind res := λ A B f m,
  match m with
  | Ret a => f a
  | Undef => Undef
  | NoFuel => NoFuel
  end.

(** ** Data *)

Abbreviation Board := (list (list ascii)).

Record Solution : Type := mkSolution {
  rowMask : list Z;
  colMask : list Z;
  boxMask : list Z;
  empties : list (nat * nat)
}.

(** The state the search threads: the members of the object and the board. *)
Abbreviation St := (Solution * list (list ascii))%type.

(** A freshly constructed [Solution]: [= {0}] on the three arrays, an empty
    vector. *)
Definition fresh : Solution :=
  mkSolution (replicate 9 0%Z) (replicate 9 0%Z) (replicate 9 0%Z) [].

Definition boxIndex (r c : nat) : nat := (r / 3) * 3 + c / 3.

(** [l[i]] as an rvalue. *)
Definition at_ {A} (l : list A) (i : nat) : res A :=
  match l !! i with
  | Some x => Ret x
  | None => Undef
  end.

(** [l[i] = f (l[i])], the shape of [l[i] |= bit] and [l[i] &= ~bit]. *)
Definition upd {A} (f : A → A) (l : list A) (i : nat) : res (list A) :=
  x ← at_ l i; Ret (<[i := f x]> l).

(** [board[r][c]] *)
Definition read (b : Board) (r c : nat) : res ascii :=
  row ← at_ b r; at_ row c.

(** [board[r][c] = ch] *)
Definition write (b : Board) (r c : nat) (ch : ascii) : res Board :=
  row ← at_ b r; _ ← at_ row c; Ret (<[r := <[c := ch]> row]> b).

Definition dot : ascii := "."%char.

(** [static_cast<char>('1' + d)] *)
Definition digit_char (d : nat) : ascii := ascii_of_nat (49 + d).

(** [1 << d] for the loop counter [d] of [dfs]. *)
Definition bit_of (d : nat) : Z := Z.shiftl 1 (Z.of_nat d).

(** [1 << d] for an [int d] computed from a character: undefined for a
    negative amount and for 32 or more; [1 << 31] is the [int] whose only
    set bit is the sign bit (C++14 and later). *)
Definition shl1 (d : Z) : res Z :=
  if decide (0 ≤ d < 31)%Z then Ret (Z.shiftl 1 d)
  else if decide (d = 31)%Z then Ret (- 2 ^ 31)%Z
  else Undef.

(** ** [init] *)

Fixpoint for_each {X A} (xs : list X) (body : X → A → res A) (a : A) : res A :=
  match xs with
  | [] => Ret a
  | x :: xs' => a' ← body x a; for_each xs' body a'
  end.

(** The body of the inner loop of [init], lines 53-62. *)
Definition init_cell (b : Board) (r c : nat) (s : Solution) : res Solution :=
  ch ← read b r c;
  if Ascii.eqb ch dot then
    Ret (mkSolution (rowMask s) (colMask s) (boxMask s) (empties s ++ [(r, c)]))
  else
    let d := (Z.of_nat (nat_of_ascii ch) - 49)%Z in
    bit ← shl1 d;
    rm ← upd (λ m, Z.lor m bit) (rowMask s) r;
    cm ← upd (λ m, Z.lor m bit) (colMask s) c;
    bm ← upd (λ m, Z.lor m bit) (boxMask s) (boxIndex r c);
    Ret (mkSolution rm cm bm (empties s)).

Definition init (s : Solution) (b : Board) : res Solution :=
  for_each (seq 0 9)
    (λ r s, for_each (seq 0 9) (λ c s, init_cell b r c s) s)
    (mkSolution (rowMask s) (colMask s) (boxMask s) []).

(** ** [dfs] *)

(** Lines 76-81, "place digit". *)
Definition place (st : St) (r c d : nat) : res St :=
  let '(s, b) := st in
  let bit := bit_of d in
  b' ← write b r c (digit_char d);
  rm ← upd (λ m, Z.lor m bit) (rowMask s) r;
  cm ← upd (λ m, Z.lor m bit) (colMask s) c;
  bm ← upd (λ m, Z.lor m bit) (boxMask s) (boxIndex r c);
  Ret (mkSolution rm cm bm (empties s), b').

(** Lines 85-89, "backtrack": the spec's [remove]. *)
Definition backtrack (st : St) (r c d : nat) : res St :=
  let '(s, b) := st in
  let bit := bit_of d in
  b' ← write b r c dot;
  rm ← upd (λ m, Z.land m (Z.lnot bit)) (rowMask s) r;
  cm ← upd (λ m, Z.land m (Z.lnot bit)) (colMask s) c;
  bm ← upd (λ m, Z.land m (Z.lnot bit)) (boxMask s) (boxIndex r c);
  Ret (mkSolution rm cm bm (empties s), b').

(** The result of a call of [dfs]: the boolean it returns, the state it
    leaves and, as a ghost output, the states the search went through: one
    entry after each "place digit" block and one after each "backtrack"
    block, in order. *)
Abbreviation Out := (bool * (Solution * list (list ascii)) * list (Solution * list (list ascii)))%type.

(** The [for (int d = 0; d < 9; ++d)] loop of [dfs], over the counters [ds]
    still to come; [rec] is the call [dfs(board, idx + 1)] and [used] was
    read once, before the loop. *)
Fixpoint try_digits (rec : St → res Out) (r c : nat) (used : Z)
    (ds : list nat) (st : St) : res Out :=
  match ds with
  | [] => Ret (false, st, [])
  | d :: ds' =>
    if negb (Z.land used (bit_of d) =? 0)%Z then try_digits rec r c used ds' st
    else
      st1 ← place st r c d;
      '(ok, st2, tr1) ← rec st1;
      if ok : bool then Ret (true, st2, st1 :: tr1)
      else
        st3 ← backtrack st2 r c d;
        '(ok', st4, tr2) ← try_digits rec r c used ds' st3;
        Ret (ok', st4, st1 :: tr1 ++ st3 :: tr2)
  end.

Fixpoint dfs_fuel (fuel : nat) (st : St) (idx : nat) : res Out :=
  match fuel with
  | O => NoFuel
  | S fuel' =>
    if idx =? length (empties st.1) then Ret (true, st, [])
    else
      '(r, c) ← at_ (empties st.1) idx;
      rm ← at_ (rowMask st.1) r;
      cm ← at_ (colMask st.1) c;
      bm ← at_ (boxMask st.1) (boxIndex r c);
      let used := Z.lor (Z.lor rm cm) bm in
      try_digits (λ st', dfs_fuel fuel' st' (idx + 1)) r c used (seq 0 9) st
  end.

Definition dfs (st : St) (idx : nat) : res Out :=
  dfs_fuel (S (length (empties st.1) - idx)) st idx.

(** ** [solveSudoku] *)

(** [init(board); dfs(board, 0);] keeping what [dfs] returned. *)
Definition solveSudoku_run (s : Solution) (b : Board) : res Out :=
  s0 ← init s b; dfs (s0, b) 0.

(** [solveSudoku] is [void]: the boolean of [dfs] is dropped. *)
Definition solveSudoku (s : Solution) (b : Board) : res St :=
  '(_, st, _) ← solveSudoku_run s b; Ret st.

(** ** Boards as text, for examples *)

Definition row_of_string (s : string) : list ascii := String.list_ascii_of_string s.

Definition board_of (rows : list string) : Board := map row_of_string rows.

Definition puzzle1 : Board := board_of
  [ "53..7...."; "6..195..."; ".98....6."; "8...6...3"; "4..8.3..1";
    "7...2...6"; ".6....28."; "...419..5"; "....8..79" ]%string.

Definition solution1 : Board := board_of
  [ "534678912"; "672195348"; "198342567"; "859761423"; "426853791";
    "713924856"; "961537284"; "287419635"; "345286179" ]%string.

(** ** Vocabulary of the specification *)

(** The character at [(r, c)], if the board has such a cell. *)
Definition cell (b : Board) (r c : nat) : option ascii :=
  row ← b !! r; row !! c.

(** Cell [(r, c)] holds the digit with 0-indexed bit position [d], that is
    the character ['1' + d]. *)
Definition holds (b : Board) (r c d : nat) : Prop :=
  d < 9 ∧ cell b r c = Some (digit_char d).

Definition is_digit (ch : ascii) : bool :=
  (49 <=? nat_of_ascii ch) && (nat_of_ascii ch <=? 57).

Definition valid_char (ch : ascii) : bool := is_digit ch || Ascii.eqb ch dot.

(** The input contract on the shape and alphabet of the board. *)
Definition valid_board (b : Board) : bool :=
  (length b =? 9) && forallb (λ row, (length row =? 9) && forallb valid_char row) b.

(** Rows, columns and boxes are the three kinds of houses; every cell lies
    in one house of each kind. *)
Inductive house : Type := Row | Col | Box.

Definition house_of (k : house) (r c : nat) : nat :=
  match k with
  | Row => r
  | Col => c
  | Box => boxIndex r c
  end.

Definition mask_of (k : house) (s : Solution) : list Z :=
  match k with
  | Row => rowMask s
  | Col => colMask s
  | Box => boxMask s
  end.

(** Bit [d] is set in the mask of house [i] of kind [k]. *)
Definition mask_bit (s : Solution) (k : house) (i d : nat) : Prop :=
  ∃ m, mask_of k s !! i = Some m ∧ Z.testbit m (Z.of_nat d) = true.

(** Mask consistency: a bit is set in a mask exactly when a cell of that
    house holds the digit. *)
Definition mask_consistent (st : St) : Prop :=
  ∀ k i d, i < 9 →
    mask_bit st.1 k i d ↔
    ∃ r c, r < 9 ∧ c < 9 ∧ house_of k r c = i ∧ holds st.2 r c d.

(** No digit twice in a house. *)
Definition distinct (b : Board) : Prop :=
  ∀ k r1 c1 r2 c2 d,
    r1 < 9 → c1 < 9 → r2 < 9 → c2 < 9 →
    house_of k r1 c1 = house_of k r2 c2 →
    holds b r1 c1 d → holds b r2 c2 d → (r1, c1) = (r2, c2).

(** The coordinates of the board in row-major order. *)
Definition all_cells : list (nat * nat) :=
  r ← seq 0 9; c ← seq 0 9; [(r, c)].

(** The cells of the 27 houses. *)
Definition house_cells (k : house) (i : nat) : list (nat * nat) :=
  filter (λ rc, house_of k rc.1 rc.2 = i) all_cells.

Definition houses : list (list (nat * nat)) :=
  k ← [Row; Col; Box]; i ← seq 0 9; [house_cells k i].

(** How many cells of [cells] hold the character [ch]. *)
Definition occurrences (b : Board) (cells : list (nat * nat)) (ch : ascii) : nat :=
  length (filter (λ rc, cell b rc.1 rc.2 = Some ch) cells).

(** Every row, every column and every box contains each digit 1-9 exactly
    once. *)
Definition solved (b : Board) : bool :=
  valid_board b &&
  forallb (λ h, forallb (λ d, occurrences b h (digit_char d) =? 1) (seq 0 9)) houses.

(** [g] keeps every digit that [b] gives. *)
Definition extends (g b : Board) : Prop :=
  ∀ r c d, holds b r c d → holds g r c d.

Definition extendsb (g b : Board) : bool :=
  forallb (λ rc,
    match cell b rc.1 rc.2 with
    | Some ch => negb (is_digit ch) || bool_decide (cell g rc.1 rc.2 = Some ch)
    | None => true
    end) all_cells.

(** [g] is a solution of the puzzle [b]. *)
Definition solution_of (b g : Board) : Prop := solved g = true ∧ extends g b.

(** ** Predicates on states and boards *)

(** The board is 9 by 9. *)
Definition shape9 (b : Board) : Prop :=
  length b = 9 ∧ ∀ r row, b !! r = Some row → length row = 9.

(** Each mask array has 9 entries, as [int xxxMask[9]] declares. *)
Definition masks9 (s : Solution) : Prop := ∀ k, length (mask_of k s) = 9.

(** The digit [d] is a candidate for [(r, c)]: the test of line 74 lets it
    through. *)
Definition candidate (s : Solution) (r c d : nat) : Prop :=
  ∃ rm cm bm,
    rowMask s !! r = Some rm ∧ colMask s !! c = Some cm ∧
    boxMask s !! boxIndex r c = Some bm ∧
    Z.land (Z.lor (Z.lor rm cm) bm) (bit_of d) = 0%Z.

(** What [dfs] relies on at depth [idx]: a 9 by 9 board, mask arrays of 9
    entries, and an [empties] list whose entries from [idx] on are distinct
    coordinates of cells that are still empty. *)
Record wf (st : St) (idx : nat) : Prop := mk_wf {
  wf_shape : shape9 st.2;
  wf_masks : masks9 st.1;
  wf_idx : idx ≤ length (empties st.1);
  wf_range : ∀ r c, (r, c) ∈ empties st.1 → r < 9 ∧ c < 9;
  wf_nodup : NoDup (drop idx (empties st.1));
  wf_dot : ∀ r c, (r, c) ∈ drop idx (empties st.1) → cell st.2 r c = Some dot
}.

(** Two boards with the same number of rows and the same row lengths. *)
Definition same_shape (b b' : Board) : Prop :=
  length b' = length b ∧ ∀ r, length <$> b' !! r = length <$> b !! r.

(** What a failed call at depth [idx] leaves, whatever the state it was
    called in: the solver's members as they were, and a board that differs
    at most on the cells that [empties] lists from [idx] on, where it may
    now hold '.'. *)
Definition restored_upto (idx : nat) (st st' : St) : Prop :=
  st'.1 = st.1 ∧ same_shape st.2 st'.2 ∧
  ∀ r c, cell st'.2 r c = cell st.2 r c ∨
         ((r, c) ∈ drop idx (empties st.1) ∧ cell st'.2 r c = Some dot).

(** The cells that [empties] lists from [idx] on hold '.'. *)
Definition listed_empty (st : St) (idx : nat) : Prop :=
  ∀ r c, (r, c) ∈ drop idx (empties st.1) → cell st.2 r c = Some dot.

(** The part of well-formedness that keeps [dfs] away from undefined
    behaviour: sizes and ranges. *)
Record sized (st : St) (idx : nat) : Prop := mk_sized {
  sized_shape : shape9 st.2;
  sized_masks : masks9 st.1;
  sized_idx : idx ≤ length (empties st.1);
  sized_range : ∀ r c, (r, c) ∈ empties st.1 → r < 9 ∧ c < 9
}.

(** What a call of [dfs] from [st] guarantees about its result [out], for an
    invariant [P] of the search indexed by the depth: on success the final
    state satisfies [P] at full depth, on failure it is [st], and every
    state gone through satisfies [P] at some depth. *)
Definition post (P : nat → St → Prop) (st : St) (out : Out) : Prop :=
  (if out.1.1 then
     P (length (empties st.1)) out.1.2 ∧ empties out.1.2.1 = empties st.1
   else out.1.2 = st) ∧
  Forall (λ x, ∃ j, P j x) out.2.

(** The coordinates of the '.' cells of a board, in row-major order. *)
Definition empty_cells (b : Board) : list (nat * nat) :=
  filter (λ rc, cell b rc.1 rc.2 = Some dot) all_cells.

(** At depth [idx] of a run on [b0]: the state is well formed, [empties] is
    what [init] built, the masks are consistent with the grid, the cells
    that [b0] gives are untouched, the first [idx] empty cells are filled,
    and no digit is twice in a house if none was in [b0]. *)
Record inv (b0 : Board) (idx : nat) (st : St) : Prop := mk_inv {
  inv_valid : valid_board b0 = true;
  inv_wf : wf st idx;
  inv_empties : empties st.1 = empty_cells b0;
  inv_mc : mask_consistent st;
  inv_rest : ∀ r c, (r, c) ∉ empty_cells b0 → cell st.2 r c = cell b0 r c;
  inv_filled : ∀ r c, (r, c) ∈ take idx (empty_cells b0) → ∃ d, holds st.2 r c d;
  inv_distinct : distinct b0 → distinct st.2
}.

(** The nine digits, as contents of cells. *)
Definition digit_cells : list (option ascii) := (λ d, Some (digit_char d)) <$> seq 0 9.

(** What the cells [h] of a board hold. *)
Definition contents (g : Board) (h : list (nat * nat)) : list (option ascii) :=
  (λ rc, cell g rc.1 rc.2) <$> h.

(** No digit twice in a house, as a check. *)
Definition distinctb (b : Board) : bool :=
  forallb (λ h, forallb (λ d, occurrences b h (digit_char d) <=? 1) (seq 0 9)) houses.

(** ** Example boards and states *)

(** [solution1] with its first cell left empty. *)
Definition one_blank : Board := board_of
  [ ".34678912"; "672195348"; "198342567"; "859761423"; "426853791";
    "713924856"; "961537284"; "287419635"; "345286179" ]%string.

(** No cell given. *)
Definition blank_board : Board := replicate 9 (replicate 9 dot).

(** Givens with no digit twice in a house and no solution: the last two
    cells of the first row need 8 and 9, and the last column has both. *)
Definition dead_end : Board := board_of
  [ "1234567.."; "........."; "........."; "........8"; "........9";
    "........."; "........."; "........."; "........." ]%string.

(** The state in which [solveSudoku] calls [dfs] on a board. *)
Definition entry_state (b : Board) : St :=
  match init fresh b with
  | Ret s0 => (s0, b)
  | _ => (fresh, b)
  end.

(** [one_blank] with the last 9 replaced by a second 7 in its row. *)
Definition twice_seven : Board := board_of
  [ ".34678912"; "672195348"; "198342567"; "859761423"; "426853791";
    "713924856"; "961537284"; "287419635"; "345286177" ]%string.

(** The state in which the root call on [dead_end] makes its first
    recursive call: an 8 placed on the cell [(0, 7)]. *)
Definition dead_end_placed : St :=
  match place (entry_state dead_end) 0 7 7 with
  | Ret st1 => st1
  | _ => entry_state dead_end
  end.

(** A state that no run reaches: [empties] lists the cell [(0, 0)], which
    holds a 5. *)
Definition five_listed : St :=
  (mkSolution (510%Z :: replicate 8 0%Z) (replicate 9 0%Z) (replicate 9 0%Z)
     [(0, 0); (0, 1)],
   board_of
     [ "5........"; "........."; "........."; "........."; ".........";
       "........."; "........."; "........."; "........." ]%string).

(** ** The calls of [dfs] in a run *)

(** The loop of the call [dfs(board, idx)] entered in state [st] reaches the
    counter [d] in state [st0] and passes the test of line 74 there:
    [(r, c)] is [empties[idx]], [used] is read from the masks of [st] before
    the loop, the counters below [d] were skipped or their recursive calls
    returned [false], and bit [d] is clear in [used].  The "place digit"
    block then runs in [st0]. *)
Definition loop_at (st : St) (idx r c d : nat) (st0 : St) : Prop :=
  ∃ rm cm bm tr,
    empties st.1 !! idx = Some (r, c) ∧
    rowMask st.1 !! r = Some rm ∧ colMask st.1 !! c = Some cm ∧
    boxMask st.1 !! boxIndex r c = Some bm ∧
    d < 9 ∧
    try_digits (λ st', dfs st' (idx + 1)) r c (Z.lor (Z.lor rm cm) bm) (seq 0 d) st
      = Ret (false, st0, tr) ∧
    Z.land (Z.lor (Z.lor rm cm) bm) (bit_of d) = 0%Z.

(** [called s b st idx]: [solveSudoku] on the solver [s] and the board [b]
    calls [dfs(board, idx)] in state [st].  [dfs] is private and has two
    call sites: line 36, after [init], and line 83, after a "place digit"
    block. *)
Inductive called (s : Solution) (b : Board) : St → nat → Prop :=
| called_root (s0 : Solution) :
    init s b = Ret s0 → called s b (s0, b) 0
| called_rec (st : St) (idx r c d : nat) (st0 st1 : St) :
    called s b st idx → loop_at st idx r c d st0 → place st0 r c d = Ret st1 →
    called s b st1 (idx + 1).

(** ** Predicates for the further properties *)

(** What any call at depth [idx] may change: [empties] and the shape of the
    board stay, and so does every cell that [empties] does not list from
    [idx] on. *)
Definition touched_only (idx : nat) (st st' : St) : Prop :=
  empties st'.1 = empties st.1 ∧ same_shape st.2 st'.2 ∧
  ∀ r c, (r, c) ∉ drop idx (empties st.1) → cell st'.2 r c = cell st.2 r c.

(** Every cell holds a 1: a full board that is no Sudoku solution. *)
Definition all_ones : Board := replicate 9 (replicate 9 "1"%char).

(** The character code of a cell, 0 off the board: the order of the
    digits '1' < ... < '9' is the order of their codes. *)
Definition code (b : Board) (rc : nat * nat) : nat :=
  match cell b rc.1 rc.2 with
  | Some ch => nat_of_ascii ch
  | None => 0
  end.

(** Lexicographic order: [l1] comes no later than [l2]. *)
Fixpoint lex_le (l1 l2 : list nat) : Prop :=
  match l1, l2 with
  | [], _ => True
  | _ :: _, [] => False
  | x :: l1', y :: l2' => x < y ∨ (x = y ∧ lex_le l1' l2')
  end.

(** [solution1] with four cells left empty that can be filled in two ways,
    and the other way to fill them. *)
Definition two_ways : Board := board_of
  [ "534..8912"; "672195348"; "198342567"; "859..1423"; "426853791";
    "713924856"; "961537284"; "287419635"; "345286179" ]%string.

Definition solution1_swapped : Board := board_of
  [ "534768912"; "672195348"; "198342567"; "859671423"; "426853791";
    "713924856"; "961537284"; "287419635"; "345286179" ]%string.

(** [puzzle1] with a letter in its third cell. *)
Definition with_letter : Board := board_of
  [ "53X.7...."; "6..195..."; ".98....6."; "8...6...3"; "4..8.3..1";
    "7...2...6"; ".6....28."; "...419..5"; "....8..79" ]%string.

(** * Basic facts *)

(** ** The result monad *)

Lemma res_bind_inv {A B} (m : res A) (f : A → res B) (y : B) :
  m ≫= f = Ret y → ∃ a, m = Ret a ∧ f a = Ret y.
Proof. destruct m; simpl; intros; eauto; discriminate. Qed.

Ltac res_inv H :=
  repeat (let a := fresh "x" in let E := fresh "E" in
          apply res_bind_inv in H as (a & E & H)).

Lemma at_Ret {A} (l : list A) (i : nat) (x : A) :
  at_ l i = Ret x ↔ l !! i = Some x.
Proof. unfold at_. destruct (l !! i); split; congruence. Qed.

Lemma upd_Ret {A} (f : A → A) (l l' : list A) (i : nat) :
  upd f l i = Ret l' ↔ ∃ x, l !! i = Some x ∧ l' = <[i := f x]> l.
Proof.
  unfold upd, at_. destruct (l !! i) as [x|]; simpl; split.
  - intros [= <-]. eauto.
  - intros (y & [= <-] & ->). done.
  - discriminate.
  - intros (y & [=] & _).
Qed.

Lemma upd_length {A} (f : A → A) (l l' : list A) (i : nat) :
  upd f l i = Ret l' → length l' = length l.
Proof. intros (x & _ & ->)%upd_Ret. apply length_insert. Qed.

Lemma read_Ret (b : Board) (r c : nat) (ch : ascii) :
  read b r c = Ret ch ↔ cell b r c = Some ch.
Proof.
  unfold read, cell, at_. destruct (b !! r) as [row|]; simpl; [|split; discriminate].
  destruct (row !! c); split; congruence.
Qed.

Lemma write_Ret (b b' : Board) (r c : nat) (ch : ascii) :
  write b r c ch = Ret b' ↔
  ∃ row, b !! r = Some row ∧ c < length row ∧ b' = <[r := <[c := ch]> row]> b.
Proof.
  unfold write, at_. destruct (b !! r) as [row|] eqn:Er; simpl.
  - destruct (row !! c) as [x|] eqn:Ec; simpl; split.
    + intros [= <-]. exists row. split_and!; try done. by eapply lookup_lt_Some.
    + intros (row' & [= <-] & _ & ->). done.
    + discriminate.
    + intros (row' & [= <-] & Hc & _). apply lookup_ge_None in Ec. lia.
  - split; [discriminate|]. intros (row' & [=] & _).
Qed.

(** A write changes the cell written and no other. *)
Lemma cell_write (b b' : Board) (r c r' c' : nat) (ch : ascii) :
  write b r c ch = Ret b' →
  cell b' r' c' = if decide ((r', c') = (r, c)) then Some ch else cell b r' c'.
Proof.
  intros (row & Er & Hc & ->)%write_Ret. unfold cell.
  pose proof (lookup_lt_Some _ _ _ Er) as Hr.
  destruct (decide (r' = r)) as [->|Hr'].
  - rewrite list_lookup_insert_eq by done. simpl. rewrite Er. simpl.
    destruct (decide (c' = c)) as [->|Hc'].
    + rewrite list_lookup_insert_eq by done. by rewrite decide_True.
    + rewrite list_lookup_insert_ne by done. rewrite decide_False by congruence. done.
  - rewrite list_lookup_insert_ne by done. rewrite decide_False by congruence. done.
Qed.

Lemma cell_lt (b : Board) (r c : nat) (ch : ascii) :
  cell b r c = Some ch → r < length b.
Proof.
  unfold cell. destruct (b !! r) eqn:E; [|discriminate].
  intros _. by eapply lookup_lt_Some.
Qed.

(** Two boards with the same number of rows and the same cells are equal. *)
Lemma board_ext (b b' : Board) :
  length b' = length b →
  (∀ r, length <$> b' !! r = length <$> b !! r) →
  (∀ r c, cell b' r c = cell b r c) → b' = b.
Proof.
  intros Hlen Hrows Hcell. apply list_eq. intros r.
  specialize (Hrows r).
  destruct (b' !! r) as [row'|] eqn:E', (b !! r) as [row|] eqn:E; simpl in *; try done.
  f_equal. apply list_eq. intros c. specialize (Hcell r c).
  unfold cell in Hcell. by rewrite E', E in Hcell.
Qed.

(** ** Bits *)

Lemma testbit_bit_of (d n : nat) :
  Z.testbit (bit_of d) (Z.of_nat n) = bool_decide (n = d).
Proof.
  unfold bit_of. rewrite Z.shiftl_1_l, Z.pow2_bits_eqb by lia.
  destruct (Z.eqb_spec (Z.of_nat d) (Z.of_nat n)); case_bool_decide; try done; lia.
Qed.

Lemma testbit_bit_of_Z (d : nat) (n : Z) :
  Z.testbit (bit_of d) n = bool_decide (n = Z.of_nat d).
Proof.
  unfold bit_of. rewrite Z.shiftl_1_l, Z.pow2_bits_eqb by lia.
  destruct (Z.eqb_spec (Z.of_nat d) n); case_bool_decide; try done; lia.
Qed.

(** The test [used & bit] of line 74. *)
Lemma land_bit_of (m : Z) (d : nat) :
  Z.land m (bit_of d) = 0%Z ↔ Z.testbit m (Z.of_nat d) = false.
Proof.
  split.
  - intros H. apply (f_equal (λ x, Z.testbit x (Z.of_nat d))) in H.
    rewrite Z.land_spec, testbit_bit_of, Z.bits_0 in H.
    rewrite bool_decide_true in H by done. by rewrite andb_true_r in H.
  - intros H. apply Z.bits_inj'. intros n _.
    rewrite Z.land_spec, testbit_bit_of_Z, Z.bits_0.
    case_bool_decide as E; [subst n; rewrite H; done|apply andb_false_r].
Qed.

Lemma land_lor_bit_of (a b c : Z) (d : nat) :
  Z.land (Z.lor (Z.lor a b) c) (bit_of d) = 0%Z ↔
  Z.land a (bit_of d) = 0%Z ∧ Z.land b (bit_of d) = 0%Z ∧ Z.land c (bit_of d) = 0%Z.
Proof.
  rewrite !land_bit_of, !Z.lor_spec, !orb_false_iff. tauto.
Qed.

(** Clearing a bit that was just set gives back a mask in which it was clear. *)
Lemma lor_land_lnot (m : Z) (d : nat) :
  Z.land m (bit_of d) = 0%Z →
  Z.land (Z.lor m (bit_of d)) (Z.lnot (bit_of d)) = m.
Proof.
  intros H%land_bit_of. apply Z.bits_inj'. intros n Hn.
  rewrite Z.land_spec, Z.lor_spec, Z.lnot_spec, testbit_bit_of_Z by done.
  case_bool_decide as E; simpl.
  - subst n. rewrite H. done.
  - by rewrite orb_false_r, andb_true_r.
Qed.

Lemma testbit_lor_bit_of (m : Z) (d n : nat) :
  Z.testbit (Z.lor m (bit_of d)) (Z.of_nat n) = Z.testbit m (Z.of_nat n) || bool_decide (n = d).
Proof. by rewrite Z.lor_spec, testbit_bit_of. Qed.

(** * Well-formed states *)

Lemma house_of_lt (k : house) (r c : nat) : r < 9 → c < 9 → house_of k r c < 9.
Proof.
  intros Hr Hc. destruct k; simpl; try done. unfold boxIndex.
  assert (r / 3 < 3) by (apply Nat.Div0.div_lt_upper_bound; lia).
  assert (c / 3 < 3) by (apply Nat.Div0.div_lt_upper_bound; lia).
  lia.
Qed.

Lemma shape9_cell (b : Board) (r c : nat) :
  shape9 b → r < 9 → c < 9 → is_Some (cell b r c).
Proof.
  intros [Hlen Hrow] Hr Hc. unfold cell.
  destruct (lookup_lt_is_Some_2 b r) as [row Er]; [lia|].
  rewrite Er. simpl. apply lookup_lt_is_Some_2. rewrite (Hrow _ _ Er). done.
Qed.

Lemma shape9_write (b b' : Board) (r c : nat) (ch : ascii) :
  shape9 b → write b r c ch = Ret b' → shape9 b'.
Proof.
  intros [Hlen Hrow] (row & Er & Hc & ->)%write_Ret. split.
  - by rewrite length_insert.
  - intros r' row'. destruct (decide (r' = r)) as [->|Hne].
    + rewrite list_lookup_insert_eq by (by eapply lookup_lt_Some).
      intros [= <-]. rewrite length_insert. eauto.
    + rewrite list_lookup_insert_ne by done. eauto.
Qed.

Lemma write_total (b : Board) (r c : nat) (ch : ascii) :
  shape9 b → r < 9 → c < 9 → ∃ b', write b r c ch = Ret b'.
Proof.
  intros Hb Hr Hc. destruct Hb as [Hlen Hrow].
  destruct (lookup_lt_is_Some_2 b r) as [row Er]; [lia|].
  eexists. apply write_Ret. exists row. split_and!; try done.
  rewrite (Hrow _ _ Er). done.
Qed.

Lemma upd_total {A} (f : A → A) (l : list A) (i : nat) :
  i < length l → ∃ l', upd f l i = Ret l'.
Proof.
  intros [x Hx]%lookup_lt_is_Some_2. eexists. apply upd_Ret. eauto.
Qed.

(** Writing a cell twice keeps the second character; writing what is there
    changes nothing. *)
Lemma write_write (b b1 b2 : Board) (r c : nat) (ch1 ch2 : ascii) :
  write b r c ch1 = Ret b1 → write b1 r c ch2 = Ret b2 → write b r c ch2 = Ret b2.
Proof.
  intros (row & Er & Hc & ->)%write_Ret (row' & Er' & Hc' & ->)%write_Ret.
  rewrite list_lookup_insert_eq in Er' by (by eapply lookup_lt_Some).
  injection Er' as <-. apply write_Ret. exists row. split_and!; try done.
  by rewrite !list_insert_insert_eq.
Qed.

Lemma write_again (b b1 : Board) (r c : nat) (ch1 ch2 : ascii) :
  write b r c ch1 = Ret b1 → ∃ b2, write b1 r c ch2 = Ret b2.
Proof.
  intros (row & Er & Hc & ->)%write_Ret. eexists. apply write_Ret.
  exists (<[c:=ch1]> row). split_and!; try done.
  - apply list_lookup_insert_eq. by eapply lookup_lt_Some.
  - by rewrite length_insert.
Qed.

Lemma write_same (b b' : Board) (r c : nat) (ch : ascii) :
  cell b r c = Some ch → write b r c ch = Ret b' → b' = b.
Proof.
  intros Hcell (row & Er & Hc & ->)%write_Ret.
  unfold cell in Hcell. rewrite Er in Hcell. simpl in Hcell.
  rewrite (list_insert_id row) by done. by apply list_insert_id.
Qed.

(** ** [place] and [backtrack], field by field *)

Lemma place_inv (st st1 : St) (r c d : nat) :
  place st r c d = Ret st1 →
  write st.2 r c (digit_char d) = Ret st1.2 ∧
  empties st1.1 = empties st.1 ∧
  ∀ k, upd (λ m, Z.lor m (bit_of d)) (mask_of k st.1) (house_of k r c)
       = Ret (mask_of k st1.1).
Proof.
  destruct st as [s b]. unfold place. intros H. res_inv H.
  injection H as <-. simpl. split_and!; try done. by intros [].
Qed.

Lemma backtrack_inv (st st1 : St) (r c d : nat) :
  backtrack st r c d = Ret st1 →
  write st.2 r c dot = Ret st1.2 ∧
  empties st1.1 = empties st.1 ∧
  ∀ k, upd (λ m, Z.land m (Z.lnot (bit_of d))) (mask_of k st.1) (house_of k r c)
       = Ret (mask_of k st1.1).
Proof.
  destruct st as [s b]. unfold backtrack. intros H. res_inv H.
  injection H as <-. simpl. split_and!; try done. by intros [].
Qed.

Lemma place_total (st : St) (r c d : nat) :
  shape9 st.2 → masks9 st.1 → r < 9 → c < 9 → ∃ st1, place st r c d = Ret st1.
Proof.
  destruct st as [s b]. simpl. intros Hb Hm Hr Hc. unfold place.
  destruct (write_total b r c (digit_char d)) as [b' ->]; try done. simpl.
  destruct (upd_total (λ m, Z.lor m (bit_of d)) (rowMask s) r) as [rm ->];
    [specialize (Hm Row); simpl in Hm; lia|]. simpl.
  destruct (upd_total (λ m, Z.lor m (bit_of d)) (colMask s) c) as [cm ->];
    [specialize (Hm Col); simpl in Hm; lia|]. simpl.
  destruct (upd_total (λ m, Z.lor m (bit_of d)) (boxMask s) (boxIndex r c)) as [bm ->];
    [specialize (Hm Box); pose proof (house_of_lt Box r c Hr Hc); simpl in *; lia|]. simpl.
  eauto.
Qed.

Lemma backtrack_total (st : St) (r c d : nat) :
  shape9 st.2 → masks9 st.1 → r < 9 → c < 9 → ∃ st1, backtrack st r c d = Ret st1.
Proof.
  destruct st as [s b]. simpl. intros Hb Hm Hr Hc. unfold backtrack.
  destruct (write_total b r c dot) as [b' ->]; try done. simpl.
  destruct (upd_total (λ m, Z.land m (Z.lnot (bit_of d))) (rowMask s) r) as [rm ->];
    [specialize (Hm Row); simpl in Hm; lia|]. simpl.
  destruct (upd_total (λ m, Z.land m (Z.lnot (bit_of d))) (colMask s) c) as [cm ->];
    [specialize (Hm Col); simpl in Hm; lia|]. simpl.
  destruct (upd_total (λ m, Z.land m (Z.lnot (bit_of d))) (boxMask s) (boxIndex r c))
    as [bm ->]; [specialize (Hm Box); pose proof (house_of_lt Box r c Hr Hc); simpl in *; lia|]. simpl.
  eauto.
Qed.

Lemma solution_eq (s s' : Solution) :
  (∀ k, mask_of k s' = mask_of k s) → empties s' = empties s → s' = s.
Proof.
  destruct s, s'. intros Hm He. simpl in He.
  pose proof (Hm Row). pose proof (Hm Col). pose proof (Hm Box).
  simpl in *. congruence.
Qed.

Lemma candidate_mask (s : Solution) (r c d : nat) (k : house) (m : Z) :
  candidate s r c d → mask_of k s !! house_of k r c = Some m →
  Z.land m (bit_of d) = 0%Z.
Proof.
  intros (rm & cm & bm & Er & Ec & Eb & (H1 & H2 & H3)%land_lor_bit_of).
  destruct k; simpl; congruence.
Qed.

Lemma candidate_no_bit (s : Solution) (r c d : nat) (k : house) :
  candidate s r c d → ¬ mask_bit s k (house_of k r c) d.
Proof.
  intros Hc (m & Em & Hbit).
  pose proof (candidate_mask _ _ _ _ _ _ Hc Em) as H%land_bit_of. congruence.
Qed.

(** [backtrack] after [place] of a candidate on an empty cell gives back
    the state there was. *)
Lemma place_backtrack (st st1 : St) (r c d : nat) :
  cell st.2 r c = Some dot → candidate st.1 r c d →
  place st r c d = Ret st1 → backtrack st1 r c d = Ret st.
Proof.
  intros Hdot Hcand (Hw & He & Hm)%place_inv.
  assert (∀ k, upd (λ m, Z.land m (Z.lnot (bit_of d))) (mask_of k st1.1) (house_of k r c)
               = Ret (mask_of k st.1)) as Hback.
  { intros k. pose proof (Hm k) as (m & Em & Hm1)%upd_Ret. rewrite Hm1.
    apply upd_Ret. exists (Z.lor m (bit_of d)). split.
    - apply list_lookup_insert_eq. by eapply lookup_lt_Some.
    - rewrite list_insert_insert_eq.
      rewrite (lor_land_lnot m d) by eauto using candidate_mask.
      symmetry. by apply list_insert_id. }
  destruct st as [s b], st1 as [s1 b1]. simpl in *. unfold backtrack.
  destruct (write_again _ _ _ _ _ dot Hw) as [b2 Ew2]. rewrite Ew2.
  pose proof (write_write _ _ _ _ _ _ _ Hw Ew2) as Hw3.
  apply (write_same _ _ _ _ _ Hdot) in Hw3 as ->. simpl.
  pose proof (Hback Row) as HR. pose proof (Hback Col) as HC.
  pose proof (Hback Box) as HB. simpl in HR, HC, HB. rewrite HR, HC, HB. simpl.
  do 2 f_equal. destruct s; simpl in *. congruence.
Qed.

(** ** Unfolding the loop and the recursion *)

Section Loop.
Context (rec : St → res Out) (r c : nat) (used : Z).

Lemma try_digits_skip (d : nat) (ds : list nat) (st : St) :
  Z.land used (bit_of d) ≠ 0%Z →
  try_digits rec r c used (d :: ds) st = try_digits rec r c used ds st.
Proof. intros H%Z.eqb_neq. simpl. by rewrite H. Qed.

Lemma try_digits_hit (d : nat) (ds : list nat) (st st1 st2 : St) (tr1 : list St) :
  Z.land used (bit_of d) = 0%Z →
  place st r c d = Ret st1 → rec st1 = Ret (true, st2, tr1) →
  try_digits rec r c used (d :: ds) st = Ret (true, st2, st1 :: tr1).
Proof. intros H%Z.eqb_eq Hp Hr. simpl. rewrite H, Hp. simpl. by rewrite Hr. Qed.

Lemma try_digits_miss (d : nat) (ds : list nat) (st st1 st2 st3 : St) (tr1 : list St) :
  Z.land used (bit_of d) = 0%Z →
  place st r c d = Ret st1 → rec st1 = Ret (false, st2, tr1) →
  backtrack st2 r c d = Ret st3 →
  try_digits rec r c used (d :: ds) st =
  '(ok', st4, tr2) ← try_digits rec r c used ds st3;
  Ret (ok', st4, st1 :: tr1 ++ st3 :: tr2).
Proof.
  intros H%Z.eqb_eq Hp Hr Hb. simpl. rewrite H, Hp. simpl. rewrite Hr. simpl.
  by rewrite Hb.
Qed.

Lemma try_digits_cons_inv (d : nat) (ds : list nat) (st : St) (out : Out) :
  try_digits rec r c used (d :: ds) st = Ret out →
  (Z.land used (bit_of d) ≠ 0%Z ∧ try_digits rec r c used ds st = Ret out) ∨
  (Z.land used (bit_of d) = 0%Z ∧
   ∃ st1 ok st2 tr1,
     place st r c d = Ret st1 ∧ rec st1 = Ret (ok, st2, tr1) ∧
     ((ok = true ∧ out = (true, st2, st1 :: tr1)) ∨
      (ok = false ∧
       ∃ st3 ok' st4 tr2,
         backtrack st2 r c d = Ret st3 ∧
         try_digits rec r c used ds st3 = Ret (ok', st4, tr2) ∧
         out = (ok', st4, st1 :: tr1 ++ st3 :: tr2)))).
Proof.
  simpl. destruct (Z.eqb_spec (Z.land used (bit_of d)) 0) as [E|E]; simpl.
  - intros H. right. split; [done|].
    apply res_bind_inv in H as (st1 & Hp & H).
    apply res_bind_inv in H as ([[ok st2] tr1] & Hr & H).
    exists st1, ok, st2, tr1. split_and!; try done.
    destruct ok.
    + left. by injection H as <-.
    + right. split; [done|].
      apply res_bind_inv in H as (st3 & Hb & H).
      apply res_bind_inv in H as ([[ok' st4] tr2] & Hl & H).
      injection H as <-. by exists st3, ok', st4, tr2.
  - intros H. by left.
Qed.
End Loop.

Lemma dfs_fuel_done (fuel : nat) (st : St) (idx : nat) :
  idx = length (empties st.1) → dfs_fuel (S fuel) st idx = Ret (true, st, []).
Proof. intros ->. simpl. by rewrite Nat.eqb_refl. Qed.

Lemma dfs_fuel_step (fuel : nat) (st : St) (idx r c : nat) (rm cm bm : Z) :
  empties st.1 !! idx = Some (r, c) →
  rowMask st.1 !! r = Some rm → colMask st.1 !! c = Some cm →
  boxMask st.1 !! boxIndex r c = Some bm →
  dfs_fuel (S fuel) st idx =
  try_digits (λ st', dfs_fuel fuel st' (idx + 1)) r c (Z.lor (Z.lor rm cm) bm) (seq 0 9) st.
Proof.
  intros He Hr Hc Hb. pose proof (lookup_lt_Some _ _ _ He) as Hlt.
  cbn [dfs_fuel]. destruct (Nat.eqb_spec idx (length (empties st.1))); [lia|].
  unfold at_. rewrite He. cbn [mbind res_bind]. rewrite Hr, Hc, Hb. done.
Qed.

Lemma dfs_fuel_inv (fuel : nat) (st : St) (idx : nat) (out : Out) :
  dfs_fuel fuel st idx = Ret out →
  ∃ fuel', fuel = S fuel' ∧
  ((idx = length (empties st.1) ∧ out = (true, st, [])) ∨
   (∃ r c rm cm bm,
      empties st.1 !! idx = Some (r, c) ∧
      rowMask st.1 !! r = Some rm ∧ colMask st.1 !! c = Some cm ∧
      boxMask st.1 !! boxIndex r c = Some bm ∧
      try_digits (λ st', dfs_fuel fuel' st' (idx + 1)) r c
        (Z.lor (Z.lor rm cm) bm) (seq 0 9) st = Ret out)).
Proof.
  destruct fuel as [|fuel']; [discriminate|]. intros H. exists fuel'. split; [done|].
  cbn [dfs_fuel] in H. destruct (Nat.eqb_spec idx (length (empties st.1))).
  - left. by injection H as <-.
  - right. apply res_bind_inv in H as ([r c] & He%at_Ret & H).
    apply res_bind_inv in H as (rm & Hr%at_Ret & H).
    apply res_bind_inv in H as (cm & Hc%at_Ret & H).
    apply res_bind_inv in H as (bm & Hb%at_Ret & H).
    by exists r, c, rm, cm, bm.
Qed.

(** ** The states of the search *)

Lemma drop_lookup_cons {A} (l : list A) (i : nat) (x : A) :
  l !! i = Some x → drop i l = x :: drop (S i) l.
Proof. intros H. by apply drop_S. Qed.

Lemma place_masks9 (st st1 : St) (r c d : nat) :
  masks9 st.1 → place st r c d = Ret st1 → masks9 st1.1.
Proof.
  intros Hm (_ & _ & Hu)%place_inv k.
  rewrite <- (Hm k). symmetry. symmetry. eapply upd_length, Hu.
Qed.

Lemma wf_place (st st1 : St) (idx r c d : nat) :
  wf st idx → empties st.1 !! idx = Some (r, c) →
  place st r c d = Ret st1 → wf st1 (S idx).
Proof.
  intros [Hs Hm Hi Hr Hn Hd] He Hp.
  pose proof (place_masks9 _ _ _ _ _ Hm Hp) as Hm1.
  apply place_inv in Hp as (Hw & Hes & _).
  rewrite (drop_lookup_cons _ _ _ He) in Hn, Hd.
  apply NoDup_cons in Hn as [Hnotin Hn].
  split; rewrite ?Hes; try done.
  - by eapply shape9_write.
  - by eapply lookup_lt_Some.
  - intros r' c' Hin. rewrite (cell_write _ _ _ _ _ _ _ Hw).
    case_decide as E; [injection E as -> ->; done|].
    apply Hd. by right.
Qed.

Lemma wf_candidate (st : St) (idx r c : nat) (rm cm bm : Z) (d : nat) :
  rowMask st.1 !! r = Some rm → colMask st.1 !! c = Some cm →
  boxMask st.1 !! boxIndex r c = Some bm →
  Z.land (Z.lor (Z.lor rm cm) bm) (bit_of d) = 0%Z → candidate st.1 r c d.
Proof. intros. by exists rm, cm, bm. Qed.

(** ** Failure restores the state *)

Lemma same_shape_write (b b' : Board) (r c : nat) (ch : ascii) :
  write b r c ch = Ret b' → same_shape b b'.
Proof.
  intros (row & Er & Hc & ->)%write_Ret. split; [by rewrite length_insert|].
  intros r'. destruct (decide (r' = r)) as [->|Hne].
  - rewrite list_lookup_insert_eq by (by eapply lookup_lt_Some).
    rewrite Er. simpl. by rewrite length_insert.
  - by rewrite list_lookup_insert_ne.
Qed.

Lemma same_shape_trans (b1 b2 b3 : Board) :
  same_shape b1 b2 → same_shape b2 b3 → same_shape b1 b3.
Proof.
  intros [H1 H1'] [H2 H2']. split; [congruence|]. intros r. by rewrite H2', H1'.
Qed.

Lemma same_shape_shape9 (b b' : Board) : same_shape b b' → shape9 b → shape9 b'.
Proof.
  intros [Hl Hr] [Hlen Hrows]. split; [congruence|]. intros r row' Hrow'.
  specialize (Hr r). rewrite Hrow' in Hr. simpl in Hr.
  destruct (b !! r) as [row|] eqn:Er; [|done]. injection Hr as Hr.
  rewrite Hr. eauto.
Qed.

(** The masks after "place digit" of a candidate, anything that keeps the
    solver's members, and "backtrack". *)
Lemma masks_restored (st st1 st2 st3 : St) (r c d : nat) :
  candidate st.1 r c d → place st r c d = Ret st1 → st2.1 = st1.1 →
  backtrack st2 r c d = Ret st3 → st3.1 = st.1.
Proof.
  intros Hcand (_ & He & Hm)%place_inv Heq (_ & He3 & Hm3)%backtrack_inv.
  rewrite Heq in He3, Hm3. apply solution_eq; [|congruence].
  intros k. pose proof (Hm k) as (m & Em & Hm1)%upd_Ret.
  pose proof (Hm3 k) as (x & Ex & ->)%upd_Ret.
  rewrite Hm1 in Ex. rewrite list_lookup_insert_eq in Ex by (by eapply lookup_lt_Some).
  injection Ex as <-. rewrite Hm1, list_insert_insert_eq.
  rewrite (lor_land_lnot m d) by eauto using candidate_mask.
  by apply list_insert_id.
Qed.

Lemma try_digits_fail (rec : St → res Out) (st : St) (idx r c : nat) (rm cm bm : Z)
    (ds : list nat) (cur st' : St) (tr : list St) :
  empties st.1 !! idx = Some (r, c) →
  rowMask st.1 !! r = Some rm → colMask st.1 !! c = Some cm →
  boxMask st.1 !! boxIndex r c = Some bm →
  (∀ st1 st2 tr1, rec st1 = Ret (false, st2, tr1) → restored_upto (S idx) st1 st2) →
  restored_upto idx st cur →
  try_digits rec r c (Z.lor (Z.lor rm cm) bm) ds cur = Ret (false, st', tr) →
  restored_upto idx st st'.
Proof.
  intros He Hr Hc Hb Hrec. revert cur tr.
  induction ds as [|d ds IH]; intros cur tr Hcur H.
  - simpl in H. by injection H as <-.
  - apply try_digits_cons_inv in H
      as [[_ H]|(E & st1 & ok & st2 & tr1 & Hp & Hr1 & [[-> [=]]|(-> & H)])].
    + eauto.
    + destruct H as (st3 & ok' & st4 & tr2 & Hbk & Hl & [= <- <- ->]).
      apply (IH st3 tr2); [|done].
      destruct Hcur as (Hs1 & Hsh & Hcells).
      destruct (Hrec _ _ _ Hr1) as (Hs2 & Hsh2 & Hcells2).
      pose proof (place_inv _ _ _ _ _ Hp) as (Hw & He1 & _).
      pose proof (backtrack_inv _ _ _ _ _ Hbk) as (Hw3 & _ & _).
      assert ((r, c) ∈ drop idx (empties st.1)) as Hin.
      { rewrite (drop_lookup_cons _ _ _ He). left. }
      split_and!.
      * rewrite <- Hs1. eapply masks_restored; eauto.
        rewrite Hs1. eauto using wf_candidate.
      * eapply same_shape_trans; [exact Hsh|].
        eapply same_shape_trans; [by eapply same_shape_write|].
        eapply same_shape_trans; [exact Hsh2|]. by eapply same_shape_write.
      * intros r' c'. rewrite (cell_write _ _ _ _ _ _ _ Hw3).
        case_decide as E'; [injection E' as -> ->; by right|].
        destruct (Hcells2 r' c') as [->|[Hin' ->]].
        -- rewrite (cell_write _ _ _ _ _ _ _ Hw), decide_False by done. apply Hcells.
        -- right. split; [|done]. rewrite He1, Hs1 in Hin'.
           rewrite (drop_lookup_cons _ _ _ He). by right.
Qed.

Lemma dfs_fuel_restored (fuel : nat) (st : St) (idx : nat) (st' : St) (tr : list St) :
  dfs_fuel fuel st idx = Ret (false, st', tr) → restored_upto idx st st'.
Proof.
  revert st idx st' tr. induction fuel as [|fuel IH]; intros st idx st' tr H;
    [discriminate|].
  apply dfs_fuel_inv in H as (? & [= <-] & [[_ [=]]|H]).
  destruct H as (r & c & rm & cm & bm & He & Hr & Hc & Hb & H).
  eapply (try_digits_fail _ st idx r c rm cm bm (seq 0 9) st);
    [exact He|exact Hr|exact Hc|exact Hb| | |exact H].
  - intros st1 st2 tr1 Hrec. simpl in Hrec.
    replace (S idx) with (idx + 1) by lia. by eapply IH.
  - split_and!; [done|by split|by left].
Qed.

Lemma restored_upto_eq (idx : nat) (st st' : St) :
  listed_empty st idx → restored_upto idx st st' → st' = st.
Proof.
  intros Hdots (Hs & [Hlen Hrows] & Hcells).
  destruct st as [s b], st' as [s' b']. simpl in *. f_equal; [done|].
  apply board_ext; try done.
  intros r c. destruct (Hcells r c) as [->|[Hin ->]]; [done|].
  symmetry. by apply Hdots.
Qed.

Lemma dfs_fuel_fail_listed (fuel : nat) (st : St) (idx : nat) (st' : St) (tr : list St) :
  listed_empty st idx → dfs_fuel fuel st idx = Ret (false, st', tr) → st' = st.
Proof. intros Hdots H. eapply restored_upto_eq; [done|]. by eapply dfs_fuel_restored. Qed.

Lemma dfs_fuel_fail (fuel : nat) (st : St) (idx : nat) (st' : St) (tr : list St) :
  wf st idx → dfs_fuel fuel st idx = Ret (false, st', tr) → st' = st.
Proof. intros Hwf. apply dfs_fuel_fail_listed. exact (wf_dot _ _ Hwf). Qed.

(** ** Every call returns *)

Lemma wf_sized (st : St) (idx : nat) : wf st idx → sized st idx.
Proof. intros [? ? ? ? _ _]. by split. Qed.

Lemma backtrack_masks9 (st st1 : St) (r c d : nat) :
  masks9 st.1 → backtrack st r c d = Ret st1 → masks9 st1.1.
Proof.
  intros Hm (_ & _ & Hu)%backtrack_inv k.
  rewrite <- (Hm k). eapply upd_length, Hu.
Qed.

Lemma try_digits_total (rec : St → res Out) (st : St) (idx r c : nat) (used : Z)
    (ds : list nat) (cur : St) :
  sized st idx → empties st.1 !! idx = Some (r, c) →
  (∀ st1, sized st1 (S idx) → empties st1.1 = empties st.1 →
          ∃ out, rec st1 = Ret out) →
  (∀ st1 st2 tr1, rec st1 = Ret (false, st2, tr1) → restored_upto (S idx) st1 st2) →
  empties cur.1 = empties st.1 → masks9 cur.1 → shape9 cur.2 →
  ∃ out, try_digits rec r c used ds cur = Ret out.
Proof.
  intros Hsz He Htot Hrec.
  assert (r < 9 ∧ c < 9) as [Hr9 Hc9].
  { apply (sized_range _ _ Hsz). by eapply list_elem_of_lookup_2. }
  revert cur. induction ds as [|d ds IH]; intros cur Hcur Hm Hshape; [by eexists|].
  destruct (decide (Z.land used (bit_of d) = 0%Z)) as [E|E].
  2: { rewrite try_digits_skip by done. eauto. }
  destruct (place_total cur r c d Hshape Hm Hr9 Hc9) as [st1 Hp].
  pose proof (place_inv _ _ _ _ _ Hp) as (Hw & He1 & _).
  assert (sized st1 (S idx)) as Hsz1.
  { split.
    - eapply shape9_write; [exact Hshape|exact Hw].
    - by eapply place_masks9.
    - rewrite He1, Hcur. by eapply lookup_lt_Some.
    - rewrite He1, Hcur. apply (sized_range _ _ Hsz). }
  destruct (Htot st1 Hsz1) as ([[ok st2] tr1] & Hrec1); [congruence|]. destruct ok.
  - eexists. by eapply try_digits_hit.
  - destruct (Hrec _ _ _ Hrec1) as (Hs2 & Hsh2 & _).
    assert (shape9 st2.2) as Hshape2.
    { eapply same_shape_shape9; [exact Hsh2|]. apply (sized_shape _ _ Hsz1). }
    assert (masks9 st2.1) as Hm2.
    { rewrite Hs2. apply (sized_masks _ _ Hsz1). }
    destruct (backtrack_total st2 r c d Hshape2 Hm2 Hr9 Hc9) as [st3 Hbk].
    pose proof (backtrack_inv _ _ _ _ _ Hbk) as (Hw3 & He3 & _).
    destruct (IH st3) as [[[ok' st4] tr2] Hl].
    + congruence.
    + by eapply backtrack_masks9.
    + eapply shape9_write; [exact Hshape2|exact Hw3].
    + erewrite try_digits_miss; eauto. rewrite Hl. by eexists.
Qed.

Lemma dfs_fuel_total (fuel : nat) (st : St) (idx : nat) :
  sized st idx → length (empties st.1) - idx < fuel →
  ∃ out, dfs_fuel fuel st idx = Ret out.
Proof.
  revert st idx. induction fuel as [|fuel IH]; intros st idx Hsz Hfuel; [lia|].
  destruct (decide (idx = length (empties st.1))) as [E|E].
  - eexists. by apply dfs_fuel_done.
  - pose proof (sized_idx _ _ Hsz) as Hidx.
    destruct (lookup_lt_is_Some_2 (empties st.1) idx) as [[r c] He]; [lia|].
    assert (r < 9 ∧ c < 9) as [Hr9 Hc9].
    { apply (sized_range _ _ Hsz). by eapply list_elem_of_lookup_2. }
    pose proof (sized_masks _ _ Hsz) as Hm.
    destruct (lookup_lt_is_Some_2 (rowMask st.1) r) as [rm Hr];
      [specialize (Hm Row); simpl in Hm; lia|].
    destruct (lookup_lt_is_Some_2 (colMask st.1) c) as [cm Hc];
      [specialize (Hm Col); simpl in Hm; lia|].
    destruct (lookup_lt_is_Some_2 (boxMask st.1) (boxIndex r c)) as [bm Hb];
      [specialize (Hm Box); pose proof (house_of_lt Box r c Hr9 Hc9); simpl in *; lia|].
    rewrite (dfs_fuel_step _ _ _ _ _ _ _ _ He Hr Hc Hb).
    apply (try_digits_total _ st idx); [exact Hsz|exact He| | |done|exact Hm|].
    + intros st1 Hsz1 He1. replace (idx + 1) with (S idx) by lia.
      apply IH; [done|]. rewrite He1. lia.
    + intros st1 st2 tr1 Hrec. simpl in Hrec.
      replace (S idx) with (idx + 1) by lia. by eapply dfs_fuel_restored.
    + apply (sized_shape _ _ Hsz).
Qed.

(** ** A rule for invariants of the search

    [P idx st] is a property of the states in which [dfs] is entered at depth
    [idx].  If [P] implies well-formedness and is carried from depth [idx] to
    [idx + 1] by placing a candidate on [empties[idx]], then every call
    returns, a call that fails gives back its state, a call that succeeds
    ends in a state of full depth, and all the states gone through satisfy
    [P] at some depth. *)

Section Invariant.
Context (P : nat → St → Prop).
Hypothesis P_wf : ∀ idx st, P idx st → wf st idx.
Hypothesis P_place : ∀ idx st r c d st1,
  P idx st → empties st.1 !! idx = Some (r, c) → d < 9 →
  candidate st.1 r c d → place st r c d = Ret st1 → P (S idx) st1.

Lemma try_digits_post (rec : St → res Out) (st : St) (idx r c : nat)
    (rm cm bm : Z) (ds : list nat) :
  P idx st → empties st.1 !! idx = Some (r, c) →
  rowMask st.1 !! r = Some rm → colMask st.1 !! c = Some cm →
  boxMask st.1 !! boxIndex r c = Some bm →
  (∀ st1, P (S idx) st1 → empties st1.1 = empties st.1 →
          ∃ out, rec st1 = Ret out ∧ post P st1 out) →
  Forall (λ d, d < 9) ds →
  ∃ out, try_digits rec r c (Z.lor (Z.lor rm cm) bm) ds st = Ret out ∧ post P st out.
Proof.
  intros HP He Hr Hc Hb Hrec. pose proof (P_wf _ _ HP) as Hwf.
  assert (cell st.2 r c = Some dot) as Hdot.
  { apply (wf_dot _ _ Hwf). rewrite (drop_lookup_cons _ _ _ He). left. }
  assert (r < 9 ∧ c < 9) as [Hr9 Hc9].
  { apply (wf_range _ _ Hwf). by eapply list_elem_of_lookup_2. }
  induction ds as [|d ds IH]; intros Hds.
  - exists (false, st, []). split; [done|]. split; simpl; [done|constructor].
  - apply Forall_cons in Hds as [Hd Hds]. specialize (IH Hds).
    destruct IH as ([[ok' st4] tr2] & Hl & Hpost & Htr). simpl in Hpost, Htr.
    destruct (decide (Z.land (Z.lor (Z.lor rm cm) bm) (bit_of d) = 0%Z)) as [E|E].
    2: { rewrite try_digits_skip by done. exists (ok', st4, tr2). repeat split; done. }
    assert (candidate st.1 r c d) as Hcand by eauto using wf_candidate.
    destruct (place_total st r c d) as [st1 Hp];
      [apply (wf_shape _ _ Hwf)|apply (wf_masks _ _ Hwf)|done|done|].
    pose proof (P_place _ _ _ _ _ _ HP He Hd Hcand Hp) as HP1.
    pose proof (place_inv _ _ _ _ _ Hp) as (_ & Hes & _).
    destruct (Hrec st1 HP1 Hes) as ([[ok st2] tr1] & Hrec1 & Hpost1 & Htr1).
    simpl in Hpost1, Htr1. destruct ok.
    + exists (true, st2, st1 :: tr1). split; [by eapply try_digits_hit|].
      destruct Hpost1 as [HP2 Hes2]. split; simpl.
      * rewrite <- Hes. split; [done|congruence].
      * constructor; eauto.
    + subst st2. pose proof (place_backtrack _ _ _ _ _ Hdot Hcand Hp) as Hbk.
      rewrite (try_digits_miss _ _ _ _ _ _ _ _ _ _ _ E Hp Hrec1 Hbk), Hl.
      exists (ok', st4, st1 :: tr1 ++ st :: tr2). split; [done|].
      split; simpl; [done|].
      constructor; [eauto|]. apply Forall_app. split; [done|].
      constructor; eauto.
Qed.

Lemma dfs_fuel_post (fuel : nat) (st : St) (idx : nat) :
  P idx st → length (empties st.1) - idx < fuel →
  ∃ out, dfs_fuel fuel st idx = Ret out ∧ post P st out.
Proof.
  revert st idx. induction fuel as [|fuel IH]; intros st idx HP Hfuel; [lia|].
  pose proof (P_wf _ _ HP) as Hwf.
  destruct (decide (idx = length (empties st.1))) as [E|E].
  - exists (true, st, []). split; [by apply dfs_fuel_done|].
    split; simpl; [|constructor]. split; [congruence|done].
  - pose proof (wf_idx _ _ Hwf) as Hidx.
    destruct (lookup_lt_is_Some_2 (empties st.1) idx) as [[r c] He]; [lia|].
    assert (r < 9 ∧ c < 9) as [Hr9 Hc9].
    { apply (wf_range _ _ Hwf). by eapply list_elem_of_lookup_2. }
    pose proof (wf_masks _ _ Hwf) as Hm.
    destruct (lookup_lt_is_Some_2 (rowMask st.1) r) as [rm Hr];
      [specialize (Hm Row); simpl in Hm; lia|].
    destruct (lookup_lt_is_Some_2 (colMask st.1) c) as [cm Hc];
      [specialize (Hm Col); simpl in Hm; lia|].
    destruct (lookup_lt_is_Some_2 (boxMask st.1) (boxIndex r c)) as [bm Hb];
      [specialize (Hm Box); pose proof (house_of_lt Box r c Hr9 Hc9); simpl in *; lia|].
    rewrite (dfs_fuel_step _ _ _ _ _ _ _ _ He Hr Hc Hb).
    eapply try_digits_post; eauto.
    + intros st1 HP1 Hes. replace (idx + 1) with (S idx) by lia.
      apply IH; [done|]. rewrite Hes. lia.
    + apply Forall_forall. intros d Hd%elem_of_seq. lia.
Qed.
End Invariant.

(** * Digits, cells and mask bits *)

Lemma nat_of_digit_char (d : nat) : d < 9 → nat_of_ascii (digit_char d) = 49 + d.
Proof. intros Hd. unfold digit_char. apply nat_ascii_embedding. lia. Qed.

Lemma digit_char_inj (d d' : nat) :
  d < 9 → d' < 9 → digit_char d = digit_char d' → d = d'.
Proof.
  intros Hd Hd' H%(f_equal nat_of_ascii). rewrite !nat_of_digit_char in H by done. lia.
Qed.

Lemma digit_char_not_dot (d : nat) : d < 9 → digit_char d ≠ dot.
Proof.
  intros Hd H%(f_equal nat_of_ascii). rewrite nat_of_digit_char in H by done.
  vm_compute in H. lia.
Qed.

Lemma is_digit_digit_char (d : nat) : d < 9 → is_digit (digit_char d) = true.
Proof.
  intros Hd. unfold is_digit. rewrite nat_of_digit_char by done.
  apply andb_true_iff. split; apply Nat.leb_le; lia.
Qed.

Lemma is_digit_inv (ch : ascii) :
  is_digit ch = true → ∃ d, d < 9 ∧ ch = digit_char d ∧ nat_of_ascii ch = 49 + d.
Proof.
  unfold is_digit. intros [H1%Nat.leb_le H2%Nat.leb_le]%andb_true_iff.
  exists (nat_of_ascii ch - 49). split_and!; [lia| |lia].
  unfold digit_char. replace (49 + (nat_of_ascii ch - 49)) with (nat_of_ascii ch) by lia.
  by rewrite ascii_nat_embedding.
Qed.

Lemma is_digit_dot : is_digit dot = false.
Proof. reflexivity. Qed.

Lemma holds_lt (b : Board) (r c d : nat) : holds b r c d → d < 9.
Proof. by intros [? _]. Qed.

Lemma holds_fun (b : Board) (r c d d' : nat) : holds b r c d → holds b r c d' → d = d'.
Proof. intros [Hd H] [Hd' H']. apply digit_char_inj; congruence. Qed.

Lemma holds_not_dot (b : Board) (r c d : nat) : cell b r c = Some dot → ¬ holds b r c d.
Proof.
  intros H [Hd H']. rewrite H in H'. injection H' as H'.
  by eapply digit_char_not_dot.
Qed.

(** The cells after a digit was written on an empty cell. *)
Lemma holds_write (b b' : Board) (r c d r' c' d' : nat) :
  cell b r c = Some dot → d < 9 → write b r c (digit_char d) = Ret b' →
  holds b' r' c' d' ↔ holds b r' c' d' ∨ (r' = r ∧ c' = c ∧ d' = d).
Proof.
  intros Hdot Hd Hw. unfold holds. rewrite (cell_write _ _ _ _ _ _ _ Hw).
  case_decide as E.
  - injection E as -> ->. split.
    + intros [Hd' [= H]]. right. split_and!; try done.
      symmetry. by apply digit_char_inj.
    + intros [[Hd' H]|(_ & _ & ->)]; [|done].
      rewrite Hdot in H. injection H as H. exfalso. symmetry in H.
      by eapply digit_char_not_dot.
  - split; [by left|]. intros [H|(-> & -> & _)]; done.
Qed.

Lemma mask_bit_fresh (k : house) (i d : nat) : ¬ mask_bit fresh k i d.
Proof.
  intros (m & Hm & Hbit).
  assert (m = 0%Z) as ->.
  { destruct k; cbn -[replicate] in Hm; apply lookup_replicate in Hm as [-> _]; done. }
  by rewrite Z.bits_0 in Hbit.
Qed.

(** The mask bits after [|= bit] on the three houses of a cell. *)
Lemma mask_bit_lor (s s' : Solution) (r c d : nat) (k : house) (i d' : nat) :
  (∀ k, upd (λ m, Z.lor m (bit_of d)) (mask_of k s) (house_of k r c)
        = Ret (mask_of k s')) →
  mask_bit s' k i d' ↔ mask_bit s k i d' ∨ (i = house_of k r c ∧ d' = d).
Proof.
  intros Hu. pose proof (Hu k) as (m & Em & Hm)%upd_Ret.
  pose proof (lookup_lt_Some _ _ _ Em) as Hlt.
  unfold mask_bit. rewrite Hm. destruct (decide (i = house_of k r c)) as [->|Hne].
  - rewrite list_lookup_insert_eq by done. split.
    + intros (m' & [= <-] & Hbit). rewrite testbit_lor_bit_of in Hbit.
      apply orb_true_iff in Hbit as [Hbit|Hbit%bool_decide_eq_true]; eauto.
    + intros [(m' & Em' & Hbit)|[_ ->]]; eexists; (split; [done|]);
        rewrite testbit_lor_bit_of.
      * assert (m' = m) as -> by congruence. by rewrite Hbit.
      * rewrite bool_decide_true by done. apply orb_true_r.
  - rewrite list_lookup_insert_ne by done. split; [by left|].
    intros [H|[? _]]; done.
Qed.

Lemma mask_bit_place (st st1 : St) (r c d : nat) (k : house) (i d' : nat) :
  place st r c d = Ret st1 →
  mask_bit st1.1 k i d' ↔ mask_bit st.1 k i d' ∨ (i = house_of k r c ∧ d' = d).
Proof. intros (_ & _ & Hu)%place_inv. by apply mask_bit_lor. Qed.

Lemma holds_place (st st1 : St) (r c d r' c' d' : nat) :
  cell st.2 r c = Some dot → d < 9 → place st r c d = Ret st1 →
  holds st1.2 r' c' d' ↔ holds st.2 r' c' d' ∨ (r' = r ∧ c' = c ∧ d' = d).
Proof. intros Hdot Hd (Hw & _)%place_inv. by eapply holds_write. Qed.

(** ** Mask consistency and distinctness are kept by [place] *)

Lemma mask_consistent_place (st st1 : St) (r c d : nat) :
  mask_consistent st → cell st.2 r c = Some dot → r < 9 → c < 9 → d < 9 →
  place st r c d = Ret st1 → mask_consistent st1.
Proof.
  intros Hmc Hdot Hr Hc Hd Hp k i d' Hi.
  rewrite (mask_bit_place _ _ _ _ _ _ _ _ Hp), (Hmc k i d' Hi). split.
  - intros [(r' & c' & Hr' & Hc' & Hh & Hholds)|[-> ->]].
    + exists r', c'. split_and!; try done.
      apply (holds_place _ _ _ _ _ _ _ _ Hdot Hd Hp). by left.
    + exists r, c. split_and!; try done.
      apply (holds_place _ _ _ _ _ _ _ _ Hdot Hd Hp). by right.
  - intros (r' & c' & Hr' & Hc' & Hh & Hholds).
    apply (holds_place _ _ _ _ _ _ _ _ Hdot Hd Hp) in Hholds
      as [Hholds|(-> & -> & ->)].
    + left. by exists r', c'.
    + by right.
Qed.

Lemma distinct_place (st st1 : St) (r c d : nat) :
  distinct st.2 → mask_consistent st → candidate st.1 r c d →
  cell st.2 r c = Some dot → r < 9 → c < 9 → d < 9 →
  place st r c d = Ret st1 → distinct st1.2.
Proof.
  intros Hdist Hmc Hcand Hdot Hr Hc Hd Hp k r1 c1 r2 c2 d' Hr1 Hc1 Hr2 Hc2 Hh H1 H2.
  assert (∀ r' c', r' < 9 → c' < 9 → house_of k r' c' = house_of k r c →
                   ¬ holds st.2 r' c' d) as Hfree.
  { intros r' c' Hr' Hc' Hh' Hholds.
    apply (candidate_no_bit _ _ _ _ k Hcand).
    apply Hmc; [by apply house_of_lt|]. by exists r', c'. }
  apply (holds_place _ _ _ _ _ _ _ _ Hdot Hd Hp) in H1 as [H1|(-> & -> & ->)];
    apply (holds_place _ _ _ _ _ _ _ _ Hdot Hd Hp) in H2 as [H2|(-> & -> & E)];
    try done.
  - eauto.
  - subst d'. exfalso. by apply (Hfree r1 c1).
  - exfalso. symmetry in Hh. by apply (Hfree r2 c2).
Qed.

(** * [init] *)

Lemma for_each_app {X A} (xs ys : list X) (body : X → A → res A) (a : A) :
  for_each (xs ++ ys) body a = for_each xs body a ≫= for_each ys body.
Proof.
  revert a. induction xs as [|x xs IH]; intros a; simpl; [done|].
  destruct (body x a); simpl; auto.
Qed.

(** The two nested loops visit the cells in row-major order. *)
Lemma for_each_nested {A} (rs cs : list nat) (body : nat → nat → A → res A) (a : A) :
  for_each rs (λ r a, for_each cs (λ c a, body r c a) a) a =
  for_each (r ← rs; c ← cs; [(r, c)]) (λ rc a, body rc.1 rc.2 a) a.
Proof.
  revert a. induction rs as [|r rs IH]; intros a; [done|].
  cbn [for_each mbind list_bind]. rewrite for_each_app.
  assert (∀ a, for_each cs (λ c a, body r c a) a =
               for_each (c ← cs; [(r, c)]) (λ rc a, body rc.1 rc.2 a) a) as ->.
  { clear. induction cs as [|c cs IH]; intros a; simpl; [done|].
    destruct (body r c a); simpl; auto. }
  destruct (for_each _ _ a); simpl; auto.
Qed.

Lemma init_flat (s : Solution) (b : Board) :
  init s b = for_each all_cells (λ rc s, init_cell b rc.1 rc.2 s)
               (mkSolution (rowMask s) (colMask s) (boxMask s) []).
Proof. unfold init, all_cells. by rewrite for_each_nested. Qed.

(** Loop invariants: [I done a] relates the state to the items done. *)
Lemma for_each_inv {X A} (I : list X → A → Prop) (body : X → A → res A)
    (xs : list X) (a : A) :
  I [] a →
  (∀ done x a, I done a → x ∈ xs → ∃ a', body x a = Ret a' ∧ I (done ++ [x]) a') →
  ∃ a', for_each xs body a = Ret a' ∧ I xs a'.
Proof.
  intros H0 Hstep.
  cut (∀ done a, I done a → (∀ x, x ∈ xs → x ∈ xs) →
                 ∃ a', for_each xs body a = Ret a' ∧ I (done ++ xs) a').
  { intros H. by apply (H [] a). }
  clear H0 a. revert Hstep. generalize xs at 1 3 as all.
  induction xs as [|x xs IH]; intros all Hstep done a HI Hsub; simpl.
  - exists a. by rewrite app_nil_r.
  - destruct (Hstep done x a HI) as (a1 & -> & HI1); [apply Hsub; left|]. simpl.
    destruct (IH all Hstep (done ++ [x]) a1 HI1) as (a' & -> & HI').
    + intros y Hy. apply Hsub. by right.
    + exists a'. by rewrite <- app_assoc in HI'.
Qed.

Lemma elem_of_all_cells (r c : nat) : (r, c) ∈ all_cells ↔ r < 9 ∧ c < 9.
Proof.
  unfold all_cells. rewrite list_elem_of_bind. split.
  - intros (r' & H & Hr%elem_of_seq).
    apply list_elem_of_bind in H as (c' & H%list_elem_of_singleton & Hc%elem_of_seq).
    injection H as -> ->. lia.
  - intros [Hr Hc]. exists r. split; [|apply elem_of_seq; lia].
    apply list_elem_of_bind. exists c. split; [by apply list_elem_of_singleton|].
    apply elem_of_seq. lia.
Qed.

Lemma valid_board_shape (b : Board) : valid_board b = true → shape9 b.
Proof.
  unfold valid_board. intros [Hlen%Nat.eqb_eq Hrows]%andb_true_iff.
  split; [done|]. intros r row Hrow.
  rewrite forallb_forall in Hrows.
  assert (In row b) as Hin by (apply list_elem_of_In; by eapply list_elem_of_lookup_2).
  by apply Hrows in Hin as [H%Nat.eqb_eq _]%andb_true_iff.
Qed.

Lemma valid_board_char (b : Board) (r c : nat) (ch : ascii) :
  valid_board b = true → cell b r c = Some ch → valid_char ch = true.
Proof.
  unfold valid_board, cell. intros [_ Hrows]%andb_true_iff H.
  destruct (b !! r) as [row|] eqn:Er; [|done]. simpl in H.
  rewrite forallb_forall in Hrows.
  assert (In row b) as Hin by (apply list_elem_of_In; by eapply list_elem_of_lookup_2).
  apply Hrows in Hin as [_ Hrow]%andb_true_iff.
  rewrite forallb_forall in Hrow. apply Hrow.
  apply list_elem_of_In. by eapply list_elem_of_lookup_2.
Qed.

(** A valid character is the dot or one of the nine digits. *)
Lemma valid_char_inv (ch : ascii) :
  valid_char ch = true → ch = dot ∨ ∃ d, d < 9 ∧ ch = digit_char d.
Proof.
  unfold valid_char. intros [H|H%Ascii.eqb_eq]%orb_true_iff; [|by left].
  right. apply is_digit_inv in H as (d & ? & ? & _). eauto.
Qed.

(** One step of [init] on an empty cell and on a given digit. *)
Lemma init_cell_dot (b : Board) (r c : nat) (s : Solution) :
  cell b r c = Some dot →
  init_cell b r c s =
  Ret (mkSolution (rowMask s) (colMask s) (boxMask s) (empties s ++ [(r, c)])).
Proof. intros H%read_Ret. unfold init_cell. rewrite H. done. Qed.

Lemma init_cell_digit (b : Board) (r c d : nat) (s : Solution) :
  holds b r c d → masks9 s → r < 9 → c < 9 →
  ∃ s', init_cell b r c s = Ret s' ∧ empties s' = empties s ∧
        ∀ k, upd (λ m, Z.lor m (bit_of d)) (mask_of k s) (house_of k r c)
             = Ret (mask_of k s').
Proof.
  intros [Hd H] Hm Hr Hc. unfold init_cell.
  apply read_Ret in H as ->. cbn [mbind res_bind].
  destruct (Ascii.eqb_spec (digit_char d) dot) as [E|_];
    [by apply digit_char_not_dot in E|].
  rewrite nat_of_digit_char by done. unfold shl1.
  rewrite decide_True by lia. cbn [mbind res_bind].
  replace (Z.shiftl 1 (Z.of_nat (49 + d) - 49)) with (bit_of d)
    by (unfold bit_of; f_equal; lia).
  destruct (upd_total (λ m, Z.lor m (bit_of d)) (rowMask s) r) as [rm Erm];
    [specialize (Hm Row); simpl in Hm; lia|].
  destruct (upd_total (λ m, Z.lor m (bit_of d)) (colMask s) c) as [cm Ecm];
    [specialize (Hm Col); simpl in Hm; lia|].
  destruct (upd_total (λ m, Z.lor m (bit_of d)) (boxMask s) (boxIndex r c)) as [bm Ebm];
    [specialize (Hm Box); pose proof (house_of_lt Box r c Hr Hc); simpl in *; lia|].
  rewrite Erm, Ecm, Ebm. cbn [mbind res_bind].
  eexists. split_and!; try done. by intros [].
Qed.

(** What [init] computes, from any masks: the empty cells in row-major
    order, and the old masks with the bits of the given digits ORed in. *)
Lemma init_spec (s : Solution) (b : Board) :
  valid_board b = true → masks9 s →
  ∃ s0, init s b = Ret s0 ∧ masks9 s0 ∧ empties s0 = empty_cells b ∧
    ∀ k i d, mask_bit s0 k i d ↔
      mask_bit s k i d ∨ ∃ r c, r < 9 ∧ c < 9 ∧ house_of k r c = i ∧ holds b r c d.
Proof.
  intros Hb Hm. rewrite init_flat.
  pose (I := λ (done : list (nat * nat)) (s' : Solution),
    masks9 s' ∧
    empties s' = filter (λ rc, cell b rc.1 rc.2 = Some dot) done ∧
    ∀ k i d, mask_bit s' k i d ↔
      mask_bit s k i d ∨ ∃ r c, (r, c) ∈ done ∧ house_of k r c = i ∧ holds b r c d).
  destruct (for_each_inv I (λ rc s, init_cell b rc.1 rc.2 s) all_cells
              (mkSolution (rowMask s) (colMask s) (boxMask s) [])) as (s0 & Hs0 & HI).
  - split_and!; [intros []; apply (Hm Row) || apply (Hm Col) || apply (Hm Box)|done|].
    intros k i d. split.
    + intros (m & Hmk & Hbit). left. exists m. by destruct k.
    + intros [(m & Hmk & Hbit)|(r & c & []%elem_of_nil & _)]. exists m. by destruct k.
  - intros done [r c] s' (Hm' & He' & Hbits') [Hr Hc]%elem_of_all_cells. simpl.
    destruct (shape9_cell b r c (valid_board_shape _ Hb) Hr Hc) as [ch Hch].
    destruct (valid_char_inv ch (valid_board_char _ _ _ _ Hb Hch)) as [->|(d0 & Hd0 & ->)].
    + rewrite init_cell_dot by done. eexists. split; [done|].
      split_and!; simpl.
      * intros []; apply (Hm' Row) || apply (Hm' Col) || apply (Hm' Box).
      * rewrite filter_app, He'. f_equal.
        rewrite filter_cons_True by done. done.
      * intros k i d. transitivity (mask_bit s' k i d).
        { split; intros (m & Hmk & Hbit); exists m; by destruct k. }
        rewrite Hbits'. apply or_iff_compat_l. split.
        -- intros (r' & c' & Hin & ?). exists r', c'. split; [|done].
           apply elem_of_app. by left.
        -- intros (r' & c' & [Hin|E%list_elem_of_singleton]%elem_of_app & ? & Hh).
           ++ by exists r', c'.
           ++ injection E as -> ->. by apply holds_not_dot in Hh.
    + destruct (init_cell_digit b r c d0 s') as (s1 & -> & He1 & Hu); try done.
      exists s1. split; [done|]. split_and!.
      * intros k. rewrite <- (Hm' k). eapply upd_length, Hu.
      * rewrite He1, He', filter_app. rewrite filter_cons_False, filter_nil, app_nil_r; [done|].
        simpl. rewrite Hch. intros [= E]. by apply digit_char_not_dot in E.
      * intros k i d. rewrite (mask_bit_lor _ _ _ _ _ _ _ _ Hu), Hbits'. split.
        -- intros [[H|(r' & c' & Hin & ?)]|[-> ->]].
           ++ by left.
           ++ right. exists r', c'. split; [|done]. apply elem_of_app. by left.
           ++ right. exists r, c. split; [|done]. apply elem_of_app. right.
              by apply list_elem_of_singleton.
        -- intros [H|(r' & c' & [Hin|E%list_elem_of_singleton]%elem_of_app & <- & Hh)].
           ++ by left; left.
           ++ left; right. by exists r', c'.
           ++ injection E as -> ->. right. split; [done|]. by eapply holds_fun.
  - exists s0. destruct HI as (Hm0 & He0 & Hbits0). split_and!; try done.
    intros k i d. rewrite Hbits0. apply or_iff_compat_l.
    split; intros (r & c & H & ?); exists r, c.
    + apply elem_of_all_cells in H. tauto.
    + split; [apply elem_of_all_cells|]; tauto.
Qed.

(** * The invariant of a run on the input [b0] *)

Lemma NoDup_all_cells : NoDup all_cells.
Proof. apply (bool_decide_unpack _). by vm_compute. Qed.

Lemma elem_of_empty_cells (b : Board) (r c : nat) :
  (r, c) ∈ empty_cells b ↔ r < 9 ∧ c < 9 ∧ cell b r c = Some dot.
Proof.
  unfold empty_cells. rewrite list_elem_of_filter, elem_of_all_cells. simpl. tauto.
Qed.

Lemma inv_place (b0 : Board) (idx : nat) (st : St) (r c d : nat) (st1 : St) :
  inv b0 idx st → empties st.1 !! idx = Some (r, c) → d < 9 →
  candidate st.1 r c d → place st r c d = Ret st1 → inv b0 (S idx) st1.
Proof.
  intros [Hb0 Hwf Hes Hmc Hrest Hfill Hdist] He Hd Hcand Hp.
  assert (cell st.2 r c = Some dot) as Hdot.
  { apply (wf_dot _ _ Hwf). rewrite (drop_lookup_cons _ _ _ He). left. }
  assert (r < 9 ∧ c < 9) as [Hr Hc].
  { apply (wf_range _ _ Hwf). by eapply list_elem_of_lookup_2. }
  pose proof (place_inv _ _ _ _ _ Hp) as (Hw & Hes1 & _).
  split.
  - done.
  - by eapply wf_place.
  - congruence.
  - exact (mask_consistent_place _ _ _ _ _ Hmc Hdot Hr Hc Hd Hp).
  - intros r' c' Hnotin. rewrite (cell_write _ _ _ _ _ _ _ Hw).
    case_decide as E; [|by apply Hrest].
    injection E as -> ->. exfalso. apply Hnotin. rewrite <- Hes.
    by eapply list_elem_of_lookup_2.
  - intros r' c'. rewrite Hes in He. rewrite (take_S_r _ _ _ He).
    intros [Hin|E%list_elem_of_singleton]%elem_of_app.
    + destruct (Hfill _ _ Hin) as [d' Hd']. exists d'.
      apply (holds_place _ _ _ _ _ _ _ _ Hdot Hd Hp). by left.
    + injection E as -> ->. exists d.
      apply (holds_place _ _ _ _ _ _ _ _ Hdot Hd Hp). by right.
  - intros Hd0. exact (distinct_place _ _ _ _ _ (Hdist Hd0) Hmc Hcand Hdot Hr Hc Hd Hp).
Qed.

Lemma mask_consistent_init (s0 : Solution) (b : Board) :
  (∀ k i d, mask_bit s0 k i d ↔
     mask_bit fresh k i d ∨ ∃ r c, r < 9 ∧ c < 9 ∧ house_of k r c = i ∧ holds b r c d) →
  mask_consistent (s0, b).
Proof.
  intros H k i d _. simpl. rewrite H. split; [|by right].
  intros [[]%mask_bit_fresh|?]; done.
Qed.

Lemma masks9_fresh : masks9 fresh.
Proof. by intros []. Qed.

Lemma inv_init (b : Board) (s0 : Solution) :
  valid_board b = true → init fresh b = Ret s0 → inv b 0 (s0, b).
Proof.
  intros Hb Hinit.
  destruct (init_spec fresh b Hb masks9_fresh) as (s0' & Hinit' & Hm & He & Hbits).
  assert (s0' = s0) as -> by congruence.
  split; simpl.
  - done.
  - split; simpl; rewrite ?He.
    + by apply valid_board_shape.
    + done.
    + lia.
    + intros r c (? & ? & _)%elem_of_empty_cells. done.
    + rewrite drop_0. apply NoDup_filter, NoDup_all_cells.
    + rewrite drop_0. intros r c (_ & _ & ?)%elem_of_empty_cells. done.
  - done.
  - by apply mask_consistent_init.
  - done.
  - intros r c []%elem_of_nil.
  - done.
Qed.

(** * Solved boards *)

Lemma elem_of_house_cells (k : house) (i r c : nat) :
  (r, c) ∈ house_cells k i ↔ r < 9 ∧ c < 9 ∧ house_of k r c = i.
Proof.
  unfold house_cells. rewrite list_elem_of_filter, elem_of_all_cells. simpl. tauto.
Qed.

Lemma NoDup_house_cells (k : house) (i : nat) : NoDup (house_cells k i).
Proof. apply NoDup_filter, NoDup_all_cells. Qed.

Lemma length_house_cells (k : house) (i : nat) : i < 9 → length (house_cells k i) = 9.
Proof.
  intros Hi. destruct k; do 9 (destruct i as [|i]; [reflexivity|]); lia.
Qed.

Lemma elem_of_houses (h : list (nat * nat)) :
  h ∈ houses ↔ ∃ k i, i < 9 ∧ h = house_cells k i.
Proof.
  unfold houses. rewrite list_elem_of_bind. split.
  - intros (k & H & _). apply list_elem_of_bind in H as (i & H%list_elem_of_singleton & Hi%elem_of_seq).
    exists k, i. split; [lia|done].
  - intros (k & i & Hi & ->). exists k. split.
    + apply list_elem_of_bind. exists i. split; [by apply list_elem_of_singleton|].
      apply elem_of_seq. lia.
    + destruct k; [left|right; left|right; right; left].
Qed.

Lemma solved_spec (g : Board) :
  solved g = true ↔
  valid_board g = true ∧
  ∀ k i d, i < 9 → d < 9 → occurrences g (house_cells k i) (digit_char d) = 1.
Proof.
  unfold solved. rewrite andb_true_iff, forallb_forall. apply and_iff_compat_l. split.
  - intros H k i d Hi Hd.
    assert (In (house_cells k i) houses) as Hin.
    { apply list_elem_of_In, elem_of_houses. eauto. }
    apply H in Hin. rewrite forallb_forall in Hin. apply Nat.eqb_eq, Hin.
    apply list_elem_of_In, elem_of_seq. lia.
  - intros H h (k & i & Hi & ->)%list_elem_of_In%elem_of_houses.
    apply forallb_forall. intros d Hd%list_elem_of_In%elem_of_seq.
    apply Nat.eqb_eq, H; lia.
Qed.

Lemma NoDup_digit_cells : NoDup digit_cells.
Proof. apply (bool_decide_unpack _). by vm_compute. Qed.

Lemma elem_of_digit_cells (x : option ascii) :
  x ∈ digit_cells ↔ ∃ d, d < 9 ∧ x = Some (digit_char d).
Proof.
  unfold digit_cells. rewrite list_elem_of_fmap. split.
  - intros (d & -> & Hd%elem_of_seq). exists d. split; [lia|done].
  - intros (d & Hd & ->). exists d. split; [done|]. apply elem_of_seq. lia.
Qed.

Lemma occurrences_pos (g : Board) (h : list (nat * nat)) (ch : ascii) :
  0 < occurrences g h ch → ∃ r c, (r, c) ∈ h ∧ cell g r c = Some ch.
Proof.
  unfold occurrences. intros H.
  destruct (filter _ h) as [|[r c] l] eqn:E; [simpl in H; lia|].
  assert ((r, c) ∈ filter (λ rc, cell g rc.1 rc.2 = Some ch) h) as Hin
    by (rewrite E; left).
  apply list_elem_of_filter in Hin as [Hc Hin]. eauto.
Qed.

Lemma NoDup_fmap_eq {A B} (f : A → B) (l : list A) (x y : A) :
  NoDup (f <$> l) → x ∈ l → y ∈ l → f x = f y → x = y.
Proof.
  induction l as [|a l IH]; [by intros _ []%elem_of_nil|].
  rewrite fmap_cons. intros [Hnotin Hnd]%NoDup_cons.
  intros [->|Hx]%elem_of_cons [->|Hy]%elem_of_cons Hf; auto.
  - exfalso. apply Hnotin. rewrite Hf. by apply list_elem_of_fmap_2.
  - exfalso. apply Hnotin. rewrite <- Hf. by apply list_elem_of_fmap_2.
Qed.

Lemma length_filter_unique {A} (P : A → Prop) `{∀ x, Decision (P x)}
    (l : list A) (x : A) :
  NoDup l → x ∈ l → P x → (∀ y, y ∈ l → P y → y = x) → length (filter P l) = 1.
Proof.
  intros Hnd Hx HPx Huniq.
  assert (x ∈ filter P l) as Hin by (by apply list_elem_of_filter).
  assert (∀ y, y ∈ filter P l → y = x) as Hall.
  { intros y [? ?]%list_elem_of_filter. auto. }
  pose proof (NoDup_filter P _ Hnd) as Hnd'.
  destruct (filter P l) as [|a [|a' l']]; [by apply elem_of_nil in Hin|done|].
  rewrite (Hall a) in Hnd' by left. rewrite (Hall a') in Hnd' by (right; left).
  apply NoDup_cons in Hnd' as [Hnotin _]. exfalso. apply Hnotin. left.
Qed.

(** In a solved board the contents of a house are the nine digits in some
    order. *)
Lemma solved_contents (g : Board) (k : house) (i : nat) :
  solved g = true → i < 9 → contents g (house_cells k i) ≡ₚ digit_cells.
Proof.
  intros [_ Hocc]%solved_spec Hi. symmetry.
  apply submseteq_length_Permutation.
  - apply NoDup_submseteq; [apply NoDup_digit_cells|].
    intros x (d & Hd & ->)%elem_of_digit_cells.
    destruct (occurrences_pos g (house_cells k i) (digit_char d)) as (r & c & Hin & Hc).
    { rewrite Hocc by done. lia. }
    unfold contents. apply list_elem_of_fmap. exists (r, c). simpl. by rewrite Hc.
  - unfold contents. rewrite length_fmap, length_house_cells by done. done.
Qed.

Lemma solved_holds (g : Board) (r c : nat) :
  solved g = true → r < 9 → c < 9 → ∃ d, holds g r c d.
Proof.
  intros Hs Hr Hc.
  assert (cell g r c ∈ contents g (house_cells Row r)) as Hin.
  { unfold contents. apply list_elem_of_fmap. exists (r, c). split; [done|].
    by apply elem_of_house_cells. }
  rewrite (solved_contents g Row r Hs Hr) in Hin.
  apply elem_of_digit_cells in Hin as (d & Hd & Hin). by exists d.
Qed.

Lemma solved_distinct (g : Board) : solved g = true → distinct g.
Proof.
  intros Hs k r1 c1 r2 c2 d Hr1 Hc1 Hr2 Hc2 Hh [Hd H1] [_ H2].
  assert (house_of k r1 c1 < 9) as Hi by (by apply house_of_lt).
  apply (NoDup_fmap_eq (λ rc, cell g rc.1 rc.2) (house_cells k (house_of k r1 c1))).
  - change (NoDup (contents g (house_cells k (house_of k r1 c1)))).
    rewrite (solved_contents g k _ Hs Hi). apply NoDup_digit_cells.
  - by apply elem_of_house_cells.
  - by apply elem_of_house_cells.
  - simpl. congruence.
Qed.

Lemma solved_shape (g : Board) : solved g = true → shape9 g.
Proof. intros [H _]%solved_spec. by apply valid_board_shape. Qed.

(** Conversely, a full 9 by 9 board with no digit twice in a house is
    solved. *)
Lemma full_distinct_solved (g : Board) :
  shape9 g → (∀ r c, r < 9 → c < 9 → ∃ d, holds g r c d) → distinct g →
  solved g = true.
Proof.
  intros [Hlen Hrows] Hfull Hdist. apply solved_spec. split.
  - unfold valid_board. rewrite Hlen. simpl. apply forallb_forall.
    intros row [r Hr]%list_elem_of_In%list_elem_of_lookup.
    rewrite (Hrows _ _ Hr). simpl. apply forallb_forall.
    intros ch [c Hc]%list_elem_of_In%list_elem_of_lookup.
    pose proof (lookup_lt_Some _ _ _ Hr). pose proof (lookup_lt_Some _ _ _ Hc) as Hc9.
    rewrite (Hrows _ _ Hr) in Hc9.
    destruct (Hfull r c) as (d & Hd & Hcell); [lia|lia|].
    unfold cell in Hcell. rewrite Hr in Hcell. simpl in Hcell.
    assert (ch = digit_char d) as -> by congruence.
    unfold valid_char. by rewrite is_digit_digit_char.
  - intros k i d Hi Hd.
    assert (contents g (house_cells k i) ≡ₚ digit_cells) as Hperm.
    { apply submseteq_length_Permutation.
      - apply NoDup_submseteq.
        + apply NoDup_fmap_2_strong; [|apply NoDup_house_cells].
          intros [r1 c1] [r2 c2] (? & ? & ?)%elem_of_house_cells
                 (? & ? & ?)%elem_of_house_cells Heq. simpl in Heq.
          destruct (Hfull r1 c1) as [d1 Hd1]; try done.
          apply (Hdist k r1 c1 r2 c2 d1); try done; [congruence|].
          destruct Hd1 as [? Hd1]. split; [done|]. congruence.
        + intros x ([r c] & -> & (? & ? & ?)%elem_of_house_cells)%list_elem_of_fmap.
          simpl. destruct (Hfull r c) as (d' & ? & ->); try done.
          apply elem_of_digit_cells. eauto.
      - unfold contents. rewrite length_fmap, length_house_cells by done. done. }
    assert (Some (digit_char d) ∈ contents g (house_cells k i)) as Hin.
    { rewrite Hperm. apply elem_of_digit_cells. eauto. }
    apply list_elem_of_fmap in Hin as ([r c] & Hcell & Hin). simpl in Hcell.
    unfold occurrences.
    apply (length_filter_unique _ _ (r, c));
      [apply NoDup_house_cells|done|done|].
    intros [r' c'] (? & ? & ?)%elem_of_house_cells Hcell'. simpl in Hcell'.
    apply elem_of_house_cells in Hin as (? & ? & ?).
    apply (Hdist k r' c' r c d); try done. congruence.
Qed.

(** * Completeness of the search *)

Lemma used_bit (st : St) (r c : nat) (rm cm bm : Z) (d : nat) :
  rowMask st.1 !! r = Some rm → colMask st.1 !! c = Some cm →
  boxMask st.1 !! boxIndex r c = Some bm →
  Z.land (Z.lor (Z.lor rm cm) bm) (bit_of d) ≠ 0%Z →
  ∃ k, mask_bit st.1 k (house_of k r c) d.
Proof.
  intros Hr Hc Hb Hne.
  assert (Z.testbit (Z.lor (Z.lor rm cm) bm) (Z.of_nat d) = true) as Hbit.
  { destruct (Z.testbit _ _) eqn:E; [done|]. by apply land_bit_of in E. }
  rewrite !Z.lor_spec, !orb_true_iff in Hbit. destruct Hbit as [[H|H]|H].
  - exists Row, rm. done.
  - exists Col, cm. done.
  - exists Box, bm. done.
Qed.

Lemma extends_place (g : Board) (st st1 : St) (r c d : nat) :
  cell st.2 r c = Some dot → extends g st.2 → holds g r c d →
  place st r c d = Ret st1 → extends g st1.2.
Proof.
  intros Hdot Hext Hg Hp r' c' d'.
  intros [H|(-> & -> & ->)]%(holds_place _ _ _ _ _ _ _ _ Hdot (holds_lt _ _ _ _ Hg) Hp);
    auto.
Qed.

(** A digit that the test of line 74 rejects cannot stand at [(r, c)] in a
    solution that keeps the digits of the grid. *)
Lemma rejected_not_in_solution (g : Board) (st : St) (r c : nat) (rm cm bm : Z) (d : nat) :
  mask_consistent st → cell st.2 r c = Some dot → r < 9 → c < 9 →
  rowMask st.1 !! r = Some rm → colMask st.1 !! c = Some cm →
  boxMask st.1 !! boxIndex r c = Some bm →
  Z.land (Z.lor (Z.lor rm cm) bm) (bit_of d) ≠ 0%Z →
  solved g = true → extends g st.2 → ¬ holds g r c d.
Proof.
  intros Hmc Hdot Hr9 Hc9 Hr Hc Hb Hne Hs Hext Hg.
  destruct (used_bit st r c rm cm bm d Hr Hc Hb Hne) as [k Hbit].
  apply Hmc in Hbit as (r' & c' & Hr' & Hc' & Hh & Hholds); [|by apply house_of_lt].
  pose proof (solved_distinct g Hs k r' c' r c d Hr' Hc' Hr9 Hc9 Hh (Hext _ _ _ Hholds) Hg)
    as [= -> ->].
  by eapply holds_not_dot.
Qed.

Lemma try_digits_complete (rec : St → res Out) (g : Board) (st : St) (idx r c : nat)
    (rm cm bm : Z) (ds : list nat) (st' : St) (tr : list St) :
  wf st idx → mask_consistent st → empties st.1 !! idx = Some (r, c) →
  rowMask st.1 !! r = Some rm → colMask st.1 !! c = Some cm →
  boxMask st.1 !! boxIndex r c = Some bm →
  solved g = true → extends g st.2 →
  (∀ d st1 st2 tr1,
     d < 9 → place st r c d = Ret st1 → rec st1 = Ret (false, st2, tr1) →
     st2 = st1 ∧ ¬ extends g st1.2) →
  (∀ d, d ∈ ds → d < 9) →
  try_digits rec r c (Z.lor (Z.lor rm cm) bm) ds st = Ret (false, st', tr) →
  ∀ d, d ∈ ds → ¬ holds g r c d.
Proof.
  intros Hwf Hmc He Hr Hc Hb Hs Hext Hrec.
  assert (cell st.2 r c = Some dot) as Hdot.
  { apply (wf_dot _ _ Hwf). rewrite (drop_lookup_cons _ _ _ He). left. }
  assert (r < 9 ∧ c < 9) as [Hr9 Hc9].
  { apply (wf_range _ _ Hwf). by eapply list_elem_of_lookup_2. }
  revert tr. induction ds as [|d ds IH]; intros tr Hlt H d0 Hd0.
  - by apply elem_of_nil in Hd0.
  - assert (∀ d, d ∈ ds → d < 9) as Hlt' by (intros; apply Hlt; by right).
    apply try_digits_cons_inv in H
      as [[Hne H]|(E & st1 & ok & st2 & tr1 & Hp & Hr1 & [[-> [=]]|(-> & H)])].
    + apply elem_of_cons in Hd0 as [->|Hd0]; [|by eapply IH].
      by eapply rejected_not_in_solution.
    + destruct H as (st3 & ok' & st4 & tr2 & Hbk & Hl & [= <- <- ->]).
      destruct (Hrec d st1 st2 tr1) as [-> Hnext]; [apply Hlt; left|done|done|].
      apply elem_of_cons in Hd0 as [->|Hd0].
      * intros Hg. apply Hnext. by eapply extends_place.
      * assert (backtrack st1 r c d = Ret st) as Hst.
        { apply place_backtrack; eauto using wf_candidate. }
        assert (st3 = st) as -> by congruence. by eapply IH.
Qed.

(** If [dfs] fails, no solved board keeps the digits of the grid. *)
Lemma dfs_fuel_complete (fuel : nat) (st : St) (idx : nat) (st' : St) (tr : list St)
    (g : Board) :
  wf st idx → mask_consistent st →
  dfs_fuel fuel st idx = Ret (false, st', tr) →
  solved g = true → ¬ extends g st.2.
Proof.
  revert st idx st' tr. induction fuel as [|fuel IH]; intros st idx st' tr Hwf Hmc H Hs Hext;
    [discriminate|].
  apply dfs_fuel_inv in H as (? & [= <-] & [[_ [=]]|H]).
  destruct H as (r & c & rm & cm & bm & He & Hr & Hc & Hb & H).
  assert (cell st.2 r c = Some dot) as Hdot.
  { apply (wf_dot _ _ Hwf). rewrite (drop_lookup_cons _ _ _ He). left. }
  assert (r < 9 ∧ c < 9) as [Hr9 Hc9].
  { apply (wf_range _ _ Hwf). by eapply list_elem_of_lookup_2. }
  destruct (solved_holds g r c Hs Hr9 Hc9) as [d Hd].
  eapply (try_digits_complete _ g st idx r c rm cm bm (seq 0 9)); eauto.
  - intros d1 st1 st2 tr1 Hd1 Hp Hrec.
    assert (wf st1 (idx + 1)) as Hwf1.
    { replace (idx + 1) with (S idx) by lia. by eapply wf_place. }
    simpl in Hrec. split; [exact (dfs_fuel_fail _ _ _ _ _ Hwf1 Hrec)|].
    apply (IH st1 (idx + 1) st2 tr1 Hwf1); [|done..].
    exact (mask_consistent_place _ _ _ _ _ Hmc Hdot Hr9 Hc9 Hd1 Hp).
  - intros d1 Hd1%elem_of_seq. lia.
  - apply elem_of_seq. pose proof (holds_lt _ _ _ _ Hd). lia.
Qed.

(** * Fuel *)

Lemma try_digits_mono (rec rec' : St → res Out) (r c : nat) (used : Z)
    (ds : list nat) (st : St) (out : Out) :
  (∀ st1 o, rec st1 = Ret o → rec' st1 = Ret o) →
  try_digits rec r c used ds st = Ret out → try_digits rec' r c used ds st = Ret out.
Proof.
  intros Hrec. revert st out. induction ds as [|d ds IH]; intros st out H; [done|].
  apply try_digits_cons_inv in H
    as [[Hne H]|(E & st1 & ok & st2 & tr1 & Hp & Hr1 & [[-> ->]|(-> & H)])].
  - rewrite try_digits_skip by done. auto.
  - eapply try_digits_hit; eauto.
  - destruct H as (st3 & ok' & st4 & tr2 & Hbk & Hl & ->).
    erewrite try_digits_miss; eauto. by rewrite (IH _ _ Hl).
Qed.

(** More fuel never changes a result. *)
Lemma dfs_fuel_mono (fuel fuel' : nat) (st : St) (idx : nat) (out : Out) :
  fuel ≤ fuel' → dfs_fuel fuel st idx = Ret out → dfs_fuel fuel' st idx = Ret out.
Proof.
  revert fuel' st idx out.
  induction fuel as [|fuel IH]; intros fuel' st idx out Hle H; [discriminate|].
  destruct fuel' as [|fuel']; [lia|].
  apply dfs_fuel_inv in H as (? & [= <-] & [[-> ->]|H]).
  - by apply dfs_fuel_done.
  - destruct H as (r & c & rm & cm & bm & He & Hr & Hc & Hb & H).
    rewrite (dfs_fuel_step _ _ _ _ _ _ _ _ He Hr Hc Hb).
    eapply try_digits_mono; [|exact H].
    intros st1 o Hrec. simpl in *. apply IH; [lia|done].
Qed.

(** * Runs of [solveSudoku] on a freshly constructed solver *)

Lemma inv_full (b : Board) (st : St) :
  inv b (length (empty_cells b)) st →
  shape9 st.2 ∧ (∀ r c, r < 9 → c < 9 → ∃ d, holds st.2 r c d) ∧ extends st.2 b.
Proof.
  intros [Hb Hwf Hes Hmc Hrest Hfill Hdist].
  assert (∀ r c d, holds b r c d → (r, c) ∉ empty_cells b) as Hgiven.
  { intros r c d Hh (_ & _ & Hdot)%elem_of_empty_cells. by eapply holds_not_dot. }
  split_and!.
  - apply (wf_shape _ _ Hwf).
  - intros r c Hr Hc. rewrite firstn_all in Hfill.
    destruct (decide ((r, c) ∈ empty_cells b)) as [Hin|Hnotin]; [auto|].
    destruct (shape9_cell b r c (valid_board_shape _ Hb) Hr Hc) as [ch Hch].
    destruct (valid_char_inv ch (valid_board_char _ _ _ _ Hb Hch)) as [->|(d & Hd & ->)].
    + exfalso. apply Hnotin. by apply elem_of_empty_cells.
    + exists d. split; [done|]. by rewrite Hrest.
  - intros r c d Hh. destruct Hh as [Hd Hcell]. split; [done|].
    rewrite Hrest; [done|]. by apply (Hgiven r c d).
Qed.

(** Every run on a valid board returns, whatever fuel above the number of
    empty cells the recursion is given; a failed run gives back the state
    that [init] left; a successful run ends at full depth; all the states
    gone through satisfy the invariant. *)
Lemma run_spec (b : Board) :
  valid_board b = true →
  ∃ s0 ok st' tr,
    init fresh b = Ret s0 ∧ empties s0 = empty_cells b ∧ inv b 0 (s0, b) ∧
    (∀ fuel, length (empties s0) < fuel → dfs_fuel fuel (s0, b) 0 = Ret (ok, st', tr)) ∧
    (if ok then inv b (length (empty_cells b)) st' else st' = (s0, b)) ∧
    Forall (λ x, ∃ j, inv b j x) tr.
Proof.
  intros Hb.
  destruct (init_spec fresh b Hb masks9_fresh) as (s0 & Hinit & Hm & He & Hbits).
  pose proof (inv_init b s0 Hb Hinit) as Hinv.
  destruct (dfs_fuel_post (inv b) (inv_wf b) (inv_place b)
              (S (length (empties s0))) (s0, b) 0 Hinv)
    as ([[ok st'] tr] & Hrun & Hpost & Htr); [simpl; lia|].
  exists s0, ok, st', tr. split_and!; try done.
  - intros fuel Hfuel. eapply dfs_fuel_mono; [|exact Hrun]. lia.
  - simpl in Hpost. destruct ok; [|done]. destruct Hpost as [Hpost _].
    by rewrite He in Hpost.
Qed.

Lemma dfs_run (b : Board) (s0 : Solution) (out : Out) :
  (∀ fuel, length (empties s0) < fuel → dfs_fuel fuel (s0, b) 0 = Ret out) →
  dfs (s0, b) 0 = Ret out.
Proof. intros H. unfold dfs. apply H. simpl. lia. Qed.

(** ** What a run decides *)

Lemma cell_range (b : Board) (r c : nat) (ch : ascii) :
  shape9 b → cell b r c = Some ch → r < 9 ∧ c < 9.
Proof.
  intros [Hlen Hrows] H. unfold cell in H.
  destruct (b !! r) as [row|] eqn:Er; [|done]. simpl in H.
  pose proof (lookup_lt_Some _ _ _ Er). pose proof (lookup_lt_Some _ _ _ H) as Hc.
  rewrite (Hrows _ _ Er) in Hc. lia.
Qed.

Lemma distinct_extends (g b : Board) : distinct g → extends g b → distinct b.
Proof.
  intros Hg Hext k r1 c1 r2 c2 d ? ? ? ? Hh H1 H2.
  apply (Hg k r1 c1 r2 c2 d); auto.
Qed.

(** A run that succeeds on an input with no digit twice in a house ends on
    a solution of the input. *)
Lemma success_solves (b : Board) (st' : St) :
  distinct b → inv b (length (empty_cells b)) st' → solution_of b st'.2.
Proof.
  intros Hdist Hinv. destruct (inv_full b st' Hinv) as (Hshape & Hfull & Hext).
  split; [|done]. apply full_distinct_solved; try done.
  by apply (inv_distinct _ _ _ Hinv).
Qed.

(** A run that fails proves that the input has no solution. *)
Lemma failure_no_solution (b : Board) (s0 : Solution) (fuel : nat) (st' : St)
    (tr : list St) (g : Board) :
  valid_board b = true → init fresh b = Ret s0 →
  dfs_fuel fuel (s0, b) 0 = Ret (false, st', tr) → ¬ solution_of b g.
Proof.
  intros Hb Hinit Hrun [Hs Hext].
  pose proof (inv_init b s0 Hb Hinit) as Hinv.
  exact (dfs_fuel_complete fuel (s0, b) 0 st' tr g (inv_wf _ _ _ Hinv)
           (inv_mc _ _ _ Hinv) Hrun Hs Hext).
Qed.

(** ** Deciding the hypotheses on concrete boards *)

Lemma length_filter_two {A} (P : A → Prop) `{∀ x, Decision (P x)}
    (l : list A) (x y : A) :
  x ∈ l → y ∈ l → P x → P y → x ≠ y → 2 ≤ length (filter P l).
Proof.
  intros Hx Hy HPx HPy Hne.
  assert (x ∈ filter P l) as Hx' by (by apply list_elem_of_filter).
  assert (y ∈ filter P l) as Hy' by (by apply list_elem_of_filter).
  destruct (filter P l) as [|a [|a' l']]; simpl; [|exfalso|lia].
  - by apply elem_of_nil in Hx'.
  - apply list_elem_of_singleton in Hx', Hy'. congruence.
Qed.

Lemma distinctb_distinct (b : Board) : distinctb b = true → distinct b.
Proof.
  unfold distinctb. rewrite forallb_forall.
  intros H k r1 c1 r2 c2 d Hr1 Hc1 Hr2 Hc2 Hh [Hd H1] [_ H2].
  destruct (decide ((r1, c1) = (r2, c2))) as [|Hne]; [done|]. exfalso.
  assert (In (house_cells k (house_of k r1 c1)) houses) as Hin.
  { apply list_elem_of_In, elem_of_houses. eauto using house_of_lt. }
  apply H in Hin. rewrite forallb_forall in Hin.
  assert (In d (seq 0 9)) as Hd' by (apply list_elem_of_In, elem_of_seq; lia).
  apply Hin, Nat.leb_le in Hd'. unfold occurrences in Hd'.
  pose proof (length_filter_two
    (λ rc, cell b rc.1 rc.2 = Some (digit_char d))
    (house_cells k (house_of k r1 c1)) (r1, c1) (r2, c2)) as Htwo.
  cut (2 ≤ 1); [lia|]. etrans; [apply Htwo|exact Hd']; try done.
  - by apply elem_of_house_cells.
  - by apply elem_of_house_cells.
Qed.

Lemma extendsb_extends (g b : Board) :
  shape9 b → extendsb g b = true → extends g b.
Proof.
  unfold extendsb. rewrite forallb_forall. intros Hb H r c d [Hd Hcell].
  destruct (cell_range _ _ _ _ Hb Hcell) as [Hr Hc].
  assert (In (r, c) all_cells) as Hin by (by apply list_elem_of_In, elem_of_all_cells).
  apply H in Hin. simpl in Hin. rewrite Hcell, is_digit_digit_char in Hin by done.
  simpl in Hin. apply bool_decide_eq_true in Hin. done.
Qed.

(** A board with a single empty cell has at most one solution. *)
Lemma one_blank_unique (b g g' : Board) (r0 c0 : nat) :
  valid_board b = true → empty_cells b = [(r0, c0)] →
  solution_of b g → solution_of b g' → g' = g.
Proof.
  intros Hb Hblank [Hs Hext] [Hs' Hext'].
  pose proof (solved_shape _ Hs) as Hsh. pose proof (solved_shape _ Hs') as Hsh'.
  assert (r0 < 9 ∧ c0 < 9) as [Hr0 Hc0].
  { assert ((r0, c0) ∈ empty_cells b) as Hin by (rewrite Hblank; left).
    apply elem_of_empty_cells in Hin. tauto. }
  assert (∀ r c, r < 9 → c < 9 → (r, c) ≠ (r0, c0) → ∃ d, holds b r c d) as Hgiven.
  { intros r c Hr Hc Hne.
    destruct (shape9_cell b r c (valid_board_shape _ Hb) Hr Hc) as [ch Hch].
    destruct (valid_char_inv ch (valid_board_char _ _ _ _ Hb Hch)) as [->|(d & Hd & ->)].
    - exfalso. apply Hne.
      assert ((r, c) ∈ empty_cells b) as Hin by (by apply elem_of_empty_cells).
      rewrite Hblank in Hin. by apply list_elem_of_singleton in Hin.
    - by exists d. }
  assert (∀ r c d, r < 9 → c < 9 → holds g r c d → holds g' r c d) as Hsame.
  { intros r c d Hr Hc Hg.
    destruct (decide ((r, c) = (r0, c0))) as [[= -> ->]|Hne].
    - destruct (solved_holds g' r0 c0 Hs' Hr Hc) as [d' Hg'].
      destruct (decide (d' = d)) as [->|Hdd]; [done|]. exfalso.
      apply solved_spec in Hs' as Hocc. destruct Hocc as [_ Hocc].
      destruct (occurrences_pos g' (house_cells Row r0) (digit_char d)) as (r & c & Hin & Hcell).
      { rewrite Hocc; [lia|done|by eapply holds_lt]. }
      apply elem_of_house_cells in Hin as (Hr' & Hc' & Hrow). simpl in Hrow. subst r.
      assert (holds g' r0 c d) as Hg'd by (split; [by eapply holds_lt|done]).
      assert (c ≠ c0) as Hcc.
      { intros ->. apply Hdd. by eapply holds_fun. }
      destruct (Hgiven r0 c) as [x Hx]; [done|done|congruence|].
      assert (x = d) as -> by (eapply holds_fun; [apply Hext', Hx|done]).
      pose proof (solved_distinct g Hs Row r0 c r0 c0 d Hr' Hc' Hr Hc eq_refl
                    (Hext _ _ _ Hx) Hg) as [= ?]. done.
    - destruct (Hgiven r c Hr Hc Hne) as [x Hx].
      assert (x = d) as -> by (eapply holds_fun; [apply Hext, Hx|done]).
      by apply Hext'. }
  apply board_ext.
  - destruct Hsh, Hsh'. congruence.
  - intros r. destruct Hsh as [Hl Hrows], Hsh' as [Hl' Hrows'].
    destruct (g !! r) as [row|] eqn:Er, (g' !! r) as [row'|] eqn:Er'; simpl.
    + by rewrite (Hrows _ _ Er), (Hrows' _ _ Er').
    + apply lookup_lt_Some in Er. apply lookup_ge_None in Er'. lia.
    + apply lookup_lt_Some in Er'. apply lookup_ge_None in Er. lia.
    + done.
  - intros r c. destruct (cell g r c) as [ch|] eqn:Eg.
    + destruct (cell_range _ _ _ _ Hsh Eg) as [Hr Hc].
      destruct (solved_holds g r c Hs Hr Hc) as [d Hd].
      destruct (Hsame r c d Hr Hc Hd) as [_ ->]. destruct Hd as [_ Hd]. congruence.
    + destruct (cell g' r c) as [ch'|] eqn:Eg'; [|done].
      destruct (cell_range _ _ _ _ Hsh' Eg') as [Hr Hc].
      destruct (shape9_cell g r c Hsh Hr Hc) as [? ?]. congruence.
Qed.

(** * The example boards *)

Lemma one_blank_solution : solution_of one_blank solution1.
Proof.
  split; [by vm_compute|].
  apply extendsb_extends; [by apply valid_board_shape|by vm_compute].
Qed.

Lemma one_blank_only_solution (g : Board) : solution_of one_blank g → g = solution1.
Proof.
  intros Hg. apply (one_blank_unique one_blank solution1 g 0 0); try done.
  apply one_blank_solution.
Qed.

(** * What a call may touch *)

Lemma same_shape_refl (b : Board) : same_shape b b.
Proof. by split. Qed.

Lemma touched_only_refl (idx : nat) (st : St) : touched_only idx st st.
Proof. split_and!; [done|apply same_shape_refl|done]. Qed.

Lemma touched_only_write (idx r c : nat) (ch : ascii) (st a b : St) :
  touched_only idx st a → (r, c) ∈ drop idx (empties st.1) →
  write a.2 r c ch = Ret b.2 → empties b.1 = empties a.1 →
  touched_only idx st b.
Proof.
  intros (He & Hsh & Hcells) Hin Hw Heb. split_and!.
  - congruence.
  - eapply same_shape_trans; [exact Hsh|]. by eapply same_shape_write.
  - intros r' c' Hnotin. rewrite (cell_write _ _ _ _ _ _ _ Hw).
    case_decide as E; [|by apply Hcells]. injection E as -> ->. done.
Qed.

Lemma touched_only_deeper (idx : nat) (st a b : St) :
  touched_only idx st a → touched_only (S idx) a b → touched_only idx st b.
Proof.
  intros (He & Hsh & Hcells) (He' & Hsh' & Hcells'). split_and!.
  - congruence.
  - by eapply same_shape_trans.
  - intros r c Hnotin. rewrite Hcells'; [by apply Hcells|].
    rewrite He. intros Hin. apply Hnotin.
    rewrite <- (take_drop 1 (drop idx (empties st.1))), drop_drop.
    apply elem_of_app. right. by replace (idx + 1) with (S idx) by lia.
Qed.

Lemma try_digits_touched (rec : St → res Out) (st : St) (idx r c : nat) (used : Z)
    (ds : list nat) (cur : St) (out : Out) :
  empties st.1 !! idx = Some (r, c) →
  (∀ st1 out1, rec st1 = Ret out1 →
     touched_only (S idx) st1 out1.1.2 ∧ Forall (touched_only (S idx) st1) out1.2) →
  touched_only idx st cur →
  try_digits rec r c used ds cur = Ret out →
  touched_only idx st out.1.2 ∧ Forall (touched_only idx st) out.2.
Proof.
  intros He Hrec.
  assert ((r, c) ∈ drop idx (empties st.1)) as Hin.
  { rewrite (drop_lookup_cons _ _ _ He). left. }
  revert cur out. induction ds as [|d ds IH]; intros cur out Hcur H.
  - simpl in H. injection H as <-. simpl. split; [done|constructor].
  - apply try_digits_cons_inv in H
      as [[_ H]|(E & st1 & ok & st2 & tr1 & Hp & Hr1 & H)]; [eauto|].
    pose proof (place_inv _ _ _ _ _ Hp) as (Hw & He1 & _).
    assert (touched_only idx st st1) as Hst1 by (by eapply touched_only_write).
    destruct (Hrec _ _ Hr1) as [Hst2 Htr1]. simpl in Hst2, Htr1.
    assert (Forall (touched_only idx st) tr1) as Htr1'.
    { eapply Forall_impl; [exact Htr1|]. intros x Hx. by eapply touched_only_deeper. }
    assert (touched_only idx st st2) as Hst2' by (by eapply touched_only_deeper).
    destruct H as [[-> ->]|(-> & st3 & ok' & st4 & tr2 & Hbk & Hl & ->)]; simpl.
    + split; [done|by constructor].
    + pose proof (backtrack_inv _ _ _ _ _ Hbk) as (Hw3 & He3 & _).
      assert (touched_only idx st st3) as Hst3 by (by eapply touched_only_write).
      destruct (IH _ _ Hst3 Hl) as [Hst4 Htr2]. simpl in Hst4, Htr2.
      split; [done|]. constructor; [done|]. apply Forall_app. split; [done|].
      by constructor.
Qed.

Lemma dfs_fuel_touched (fuel : nat) (st : St) (idx : nat) (out : Out) :
  dfs_fuel fuel st idx = Ret out →
  touched_only idx st out.1.2 ∧ Forall (touched_only idx st) out.2.
Proof.
  revert st idx out. induction fuel as [|fuel IH]; intros st idx out H; [discriminate|].
  apply dfs_fuel_inv in H as (? & [= <-] & [[_ ->]|H]).
  - simpl. split; [apply touched_only_refl|constructor].
  - destruct H as (r & c & rm & cm & bm & He & Hr & Hc & Hb & H).
    eapply (try_digits_touched _ st idx r c _ (seq 0 9) st); [exact He| | |exact H].
    + intros st1 out1 Hrec. simpl in Hrec.
      replace (S idx) with (idx + 1) by lia. by eapply IH.
    + apply touched_only_refl.
Qed.

(** * Which solution the search returns *)

Lemma code_holds (b : Board) (r c d : nat) : holds b r c d → code b (r, c) = 49 + d.
Proof. intros [Hd H]. unfold code. simpl. rewrite H. by apply nat_of_digit_char. Qed.

Lemma lex_le_filter {A} (P : A → Prop) `{∀ x, Decision (P x)} (f g : A → nat)
    (l : list A) :
  (∀ x, x ∈ l → ¬ P x → f x = g x) →
  lex_le (f <$> filter P l) (g <$> filter P l) → lex_le (f <$> l) (g <$> l).
Proof.
  induction l as [|x l IH]; intros Hsame Hlex; [done|].
  assert (∀ y, y ∈ l → ¬ P y → f y = g y) as Hsame' by (intros; apply Hsame; [by right|done]).
  rewrite !fmap_cons. simpl. destruct (decide (P x)) as [HP|HP].
  - rewrite filter_cons_True in Hlex by done. rewrite !fmap_cons in Hlex. simpl in Hlex.
    destruct Hlex as [Hlt|[Heq Hlex]]; [by left|]. right. split; [done|]. by apply IH.
  - rewrite filter_cons_False in Hlex by done. right. split; [|by apply IH].
    apply Hsame; [left|done].
Qed.

Lemma try_digits_first (rec : St → res Out) (g : Board) (st : St) (idx r c : nat)
    (rm cm bm : Z) (rest : list (nat * nat)) :
  wf st idx → mask_consistent st → empties st.1 !! idx = Some (r, c) →
  rowMask st.1 !! r = Some rm → colMask st.1 !! c = Some cm →
  boxMask st.1 !! boxIndex r c = Some bm →
  solved g = true → extends g st.2 →
  (∀ d st1 st2 tr1,
     d < 9 → place st r c d = Ret st1 → rec st1 = Ret (false, st2, tr1) →
     st2 = st1 ∧ ¬ extends g st1.2) →
  (∀ d st1 st2 tr1,
     d < 9 → place st r c d = Ret st1 → rec st1 = Ret (true, st2, tr1) →
     cell st2.2 r c = cell st1.2 r c ∧
     (extends g st1.2 → lex_le (code st2.2 <$> rest) (code g <$> rest))) →
  ∀ n a st' tr,
    a + n ≤ 9 → (∀ d, holds g r c d → a ≤ d) →
    try_digits rec r c (Z.lor (Z.lor rm cm) bm) (seq a n) st = Ret (true, st', tr) →
    lex_le (code st'.2 <$> (r, c) :: rest) (code g <$> (r, c) :: rest).
Proof.
  intros Hwf Hmc He Hr Hc Hb Hs Hext Hfail Hsucc.
  assert (cell st.2 r c = Some dot) as Hdot.
  { apply (wf_dot _ _ Hwf). rewrite (drop_lookup_cons _ _ _ He). left. }
  assert (r < 9 ∧ c < 9) as [Hr9 Hc9].
  { apply (wf_range _ _ Hwf). by eapply list_elem_of_lookup_2. }
  induction n as [|n IH]; intros a st' tr Hle Hlow H; [discriminate H|].
  cbn [seq] in H.
  apply try_digits_cons_inv in H
    as [[Hne H]|(E & st1 & ok & st2 & tr1 & Hp & Hr1 & H)].
  - apply (IH (S a) st' tr); [lia| |exact H]. intros d Hd.
    pose proof (Hlow d Hd) as Hge.
    destruct (decide (d = a)) as [->|]; [|lia]. exfalso.
    by eapply (rejected_not_in_solution g st r c rm cm bm a).
  - destruct H as [[-> Hout]|(-> & st3 & ok' & st4 & tr2 & Hbk & Hl & Hout)].
    + injection Hout as -> ->.
      destruct (Hsucc a st1 st2 tr1) as [Hcell Hlex]; [lia|done|done|].
      destruct (solved_holds g r c Hs Hr9 Hc9) as [dg Hdg].
      pose proof (Hlow dg Hdg) as Hge.
      assert (holds st2.2 r c a) as Hst2.
      { split; [lia|]. rewrite Hcell.
        pose proof (place_inv _ _ _ _ _ Hp) as (Hw & _).
        rewrite (cell_write _ _ _ _ _ _ _ Hw). by rewrite decide_True. }
      rewrite !fmap_cons. simpl.
      rewrite (code_holds _ _ _ _ Hst2), (code_holds _ _ _ _ Hdg).
      destruct (decide (a = dg)) as [->|Hneq]; [|left; lia].
      right. split; [done|]. apply Hlex. by eapply extends_place.
    + injection Hout as <- -> ->.
      destruct (Hfail a st1 st2 tr1) as [-> Hnext]; [lia|done|done|].
      assert (backtrack st1 r c a = Ret st) as Hst.
      { apply place_backtrack; eauto using wf_candidate. }
      assert (st3 = st) as -> by congruence.
      apply (IH (S a) st4 tr2); [lia| |exact Hl]. intros d Hd.
      pose proof (Hlow d Hd) as Hge.
      destruct (decide (d = a)) as [->|]; [|lia]. exfalso.
      apply Hnext. by eapply extends_place.
Qed.

Lemma dfs_fuel_first (fuel : nat) (st : St) (idx : nat) (st' : St) (tr : list St)
    (g : Board) :
  wf st idx → mask_consistent st →
  dfs_fuel fuel st idx = Ret (true, st', tr) →
  solved g = true → extends g st.2 →
  lex_le (code st'.2 <$> drop idx (empties st.1)) (code g <$> drop idx (empties st.1)).
Proof.
  revert st idx st' tr. induction fuel as [|fuel IH]; intros st idx st' tr Hwf Hmc H Hs Hext;
    [discriminate|].
  apply dfs_fuel_inv in H as (? & [= <-] & [[-> _]|H]).
  - by rewrite drop_all.
  - destruct H as (r & c & rm & cm & bm & He & Hr & Hc & Hb & H).
    assert (cell st.2 r c = Some dot) as Hdot.
    { apply (wf_dot _ _ Hwf). rewrite (drop_lookup_cons _ _ _ He). left. }
    assert (r < 9 ∧ c < 9) as [Hr9 Hc9].
    { apply (wf_range _ _ Hwf). by eapply list_elem_of_lookup_2. }
    pose proof (wf_nodup _ _ Hwf) as Hnd.
    rewrite (drop_lookup_cons _ _ _ He) in Hnd. apply NoDup_cons in Hnd as [Hnotin _].
    rewrite (drop_lookup_cons _ _ _ He).
    apply (try_digits_first (λ st', dfs_fuel fuel st' (idx + 1)) g st idx r c rm cm bm
             (drop (S idx) (empties st.1)) Hwf Hmc He Hr Hc Hb Hs Hext)
      with (n := 9) (a := 0) (tr := tr); [| |lia|intros; lia|exact H].
    + intros d st1 st2 tr1 Hd Hp Hrec. simpl in Hrec.
      assert (wf st1 (idx + 1)) as Hwf1.
      { replace (idx + 1) with (S idx) by lia. by eapply wf_place. }
      split; [exact (dfs_fuel_fail _ _ _ _ _ Hwf1 Hrec)|].
      apply (dfs_fuel_complete fuel st1 (idx + 1) st2 tr1 g Hwf1); [|exact Hrec|exact Hs].
      exact (mask_consistent_place _ _ _ _ _ Hmc Hdot Hr9 Hc9 Hd Hp).
    + intros d st1 st2 tr1 Hd Hp Hrec. simpl in Hrec.
      assert (wf st1 (idx + 1)) as Hwf1.
      { replace (idx + 1) with (S idx) by lia. by eapply wf_place. }
      pose proof (place_inv _ _ _ _ _ Hp) as (_ & He1 & _).
      split.
      * destruct (dfs_fuel_touched _ _ _ _ Hrec) as [(_ & _ & Hcells) _].
        apply Hcells. rewrite He1. by replace (idx + 1) with (S idx) by lia.
      * intros Hext1.
        pose proof (IH st1 (idx + 1) st2 tr1 Hwf1
                      (mask_consistent_place _ _ _ _ _ Hmc Hdot Hr9 Hc9 Hd Hp)
                      Hrec Hs Hext1) as Hlex.
        rewrite He1 in Hlex. by replace (idx + 1) with (S idx) in Hlex by lia.
Qed.

(** * The calls of [dfs] in a run *)

(** Loop invariants of a loop that returns. *)
Lemma for_each_ret {X A} (I : list X → A → Prop) (body : X → A → res A)
    (xs : list X) (a a' : A) :
  I [] a →
  (∀ done x a a1, I done a → x ∈ xs → body x a = Ret a1 → I (done ++ [x]) a1) →
  for_each xs body a = Ret a' → I xs a'.
Proof.
  intros H0 Hstep.
  cut (∀ ys done a, (∀ x, x ∈ ys → x ∈ xs) → I done a →
                    for_each ys body a = Ret a' → I (done ++ ys) a').
  { intros H. apply (H xs [] a); done. }
  clear H0 a. induction ys as [|y ys IH]; intros done a Hsub HI H; simpl in H.
  - injection H as <-. by rewrite app_nil_r.
  - apply res_bind_inv in H as (a1 & Hb & H).
    replace (done ++ y :: ys) with ((done ++ [y]) ++ ys) by (by rewrite <- app_assoc).
    apply (IH (done ++ [y]) a1); [|(eapply Hstep; [exact HI| |exact Hb])|exact H].
    + intros x Hx. apply Hsub. by right.
    + apply Hsub. left.
Qed.

(** Whenever [init] returns, on any characters, the mask arrays keep their
    9 entries and [empties] lists the '.' cells in row-major order. *)
Lemma init_ret (s s0 : Solution) (b : Board) :
  masks9 s → init s b = Ret s0 → masks9 s0 ∧ empties s0 = empty_cells b.
Proof.
  intros Hm. rewrite init_flat.
  apply (for_each_ret
    (λ (done : list (nat * nat)) (s' : Solution),
       masks9 s' ∧ empties s' = filter (λ rc, cell b rc.1 rc.2 = Some dot) done)).
  - split; [|done]. intros []; apply (Hm Row) || apply (Hm Col) || apply (Hm Box).
  - intros done [r c] s1 s2 [Hm1 He1] _ H. simpl in H. unfold init_cell in H.
    apply res_bind_inv in H as (ch & Hch%read_Ret & H).
    rewrite filter_app.
    destruct (Ascii.eqb_spec ch dot) as [->|Hne].
    + injection H as <-. simpl. split.
      * intros []; apply (Hm1 Row) || apply (Hm1 Col) || apply (Hm1 Box).
      * rewrite He1, filter_cons_True by done. done.
    + apply res_bind_inv in H as (bit & _ & H).
      apply res_bind_inv in H as (rm & Hrm%upd_length & H).
      apply res_bind_inv in H as (cm & Hcm%upd_length & H).
      apply res_bind_inv in H as (bm & Hbm%upd_length & H).
      injection H as <-. simpl. split.
      * pose proof (Hm1 Row). pose proof (Hm1 Col). pose proof (Hm1 Box).
        intros []; simpl in *; congruence.
      * rewrite filter_cons_False, filter_nil, app_nil_r; [done|].
        simpl. rewrite Hch. congruence.
Qed.

(** The loop of a call reaches each counter in the state the call was
    entered in: the calls that failed before have restored it. *)
Lemma loop_at_eq (st : St) (idx r c d : nat) (st0 : St) :
  listed_empty st idx → loop_at st idx r c d st0 → st0 = st.
Proof.
  intros Hdots (rm & cm & bm & tr & He & Hr & Hc & Hb & _ & H & _).
  apply (restored_upto_eq idx); [exact Hdots|].
  eapply (try_digits_fail _ st idx r c rm cm bm (seq 0 d) st);
    [exact He|exact Hr|exact Hc|exact Hb| | |exact H].
  - intros st1 st2 tr1 Hrec. simpl in Hrec. unfold dfs in Hrec.
    replace (S idx) with (idx + 1) by lia. by eapply dfs_fuel_restored.
  - split_and!; [done|by split|by left].
Qed.

(** Every call of [dfs] is made in a well-formed state. *)
Lemma called_wf (s : Solution) (b : Board) (st : St) (idx : nat) :
  masks9 s → shape9 b → called s b st idx → wf st idx.
Proof.
  intros Hm Hs H. induction H as [s0 Hinit|st idx r c d st0 st1 Hcall IH Hloop Hp].
  - destruct (init_ret _ _ _ Hm Hinit) as [Hm0 He]. split; simpl; rewrite ?He.
    + exact Hs.
    + exact Hm0.
    + lia.
    + intros r c (? & ? & _)%elem_of_empty_cells. done.
    + rewrite drop_0. apply NoDup_filter, NoDup_all_cells.
    + rewrite drop_0. intros r c (_ & _ & ?)%elem_of_empty_cells. done.
  - pose proof (loop_at_eq _ _ _ _ _ _ (wf_dot _ _ IH) Hloop) as ->.
    destruct Hloop as (rm & cm & bm & tr & He & _).
    replace (idx + 1) with (S idx) by lia. by eapply wf_place.
Qed.

(** A search that succeeds on a board that has a solution leaves a solution,
    and no solution comes before it. *)
Lemma success_first (b : Board) (s0 : Solution) (st' : St) (tr : list St) (g : Board) :
  valid_board b = true → init fresh b = Ret s0 →
  dfs (s0, b) 0 = Ret (true, st', tr) → solution_of b g →
  solution_of b st'.2 ∧ lex_le (code st'.2 <$> all_cells) (code g <$> all_cells).
Proof.
  intros Hb Hinit0 Hdfs [Hs Hext].
  destruct (run_spec b Hb) as (s1 & ok & st0 & tr0 & Hinit & He & Hinv & Hrun & Hend & Htr).
  assert (s1 = s0) as -> by congruence.
  pose proof (dfs_run _ _ _ Hrun) as Hdfs0.
  rewrite Hdfs in Hdfs0. injection Hdfs0 as <- <- <-.
  assert (distinct b) as Hdist.
  { eapply distinct_extends; [by apply solved_distinct|done]. }
  pose proof (success_solves b st' Hdist Hend) as Hsol.
  split; [exact Hsol|]. destruct Hsol as [Hs' Hext'].
  apply (lex_le_filter (λ rc, cell b rc.1 rc.2 = Some dot)).
  - intros [r c] [Hr Hc]%elem_of_all_cells Hgiven. simpl in Hgiven.
    destruct (shape9_cell b r c (valid_board_shape _ Hb) Hr Hc) as [ch Hch].
    destruct (valid_char_inv ch (valid_board_char _ _ _ _ Hb Hch)) as [->|(d & Hd & ->)];
      [done|].
    assert (holds b r c d) as Hh by (by split).
    by rewrite (code_holds _ _ _ _ (Hext' _ _ _ Hh)), (code_holds _ _ _ _ (Hext _ _ _ Hh)).
  - pose proof (dfs_fuel_first _ (s0, b) 0 st' tr g (inv_wf _ _ _ Hinv)
                  (inv_mc _ _ _ Hinv) Hdfs Hs Hext) as Hlex.
    simpl in Hlex. rewrite drop_0, He in Hlex. exact Hlex.
Qed.

(** * The claims of the specification *)

Lemma run_states (b : Board) (Q : St → Prop) :
  valid_board b = true → (∀ j st, inv b j st → Q st) →
  ∃ s0 ok st' tr,
    init fresh b = Ret s0 ∧ dfs (s0, b) 0 = Ret (ok, st', tr) ∧
    Forall Q ((s0, b) :: tr ++ [st']).
Proof.
  intros Hb HQ.
  destruct (run_spec b Hb) as (s0 & ok & st' & tr & Hinit & He & Hinv & Hrun & Hend & Htr).
  exists s0, ok, st', tr. split_and!; [done|by apply dfs_run|].
  constructor; [by eapply HQ|]. apply Forall_app. split.
  - eapply Forall_impl; [exact Htr|]. intros st [j Hj]. by eapply HQ.
  - constructor; [|constructor]. destruct ok; [by eapply HQ|]. subst st'. by eapply HQ.
Qed.

Lemma solveSudoku_of_run (b : Board) (s0 : Solution) (ok : bool) (st' : St)
    (tr : list St) :
  init fresh b = Ret s0 → dfs (s0, b) 0 = Ret (ok, st', tr) →
  solveSudoku_run fresh b = Ret (ok, st', tr) ∧ solveSudoku fresh b = Ret st'.
Proof.
  intros Hinit Hrun. unfold solveSudoku, solveSudoku_run.
  rewrite Hinit. simpl. rewrite Hrun. done.
Qed.

(** C1.  On a 9 by 9 board of digits and dots that has exactly one solution
    [g] (its givens then satisfy row, column and box uniqueness),
    [solveSudoku] on a fresh solver returns a board in which every cell
    holds a digit '1'-'9' and every row, column and box contains each digit
    exactly once, and that board is [g]. *)
Theorem solveSudoku_solves (b g : Board) :
  valid_board b = true → solution_of b g → (∀ g', solution_of b g' → g' = g) →
  ∃ s' out,
    solveSudoku fresh b = Ret (s', out) ∧
    (∀ r c, r < 9 → c < 9 → ∃ d, holds out r c d) ∧
    solved out = true ∧ out = g.
Proof.
  intros Hb Hg Huniq.
  destruct (run_spec b Hb) as (s0 & ok & st' & tr & Hinit & He & Hinv & Hrun & Hend & Htr).
  pose proof (dfs_run _ _ _ Hrun) as Hdfs.
  destruct (solveSudoku_of_run _ _ _ _ _ Hinit Hdfs) as [_ Hsolve].
  destruct ok.
  - assert (distinct b) as Hdist.
    { destruct Hg as [Hs Hext]. eapply distinct_extends; [by apply solved_distinct|done]. }
    pose proof (success_solves b st' Hdist Hend) as Hsol.
    destruct (inv_full b st' Hend) as (_ & Hfull & _).
    destruct st' as [s' out]. exists s', out. split_and!; try done.
    + by destruct Hsol.
    + by apply Huniq.
  - exfalso. eapply (failure_no_solution b s0 _ st' tr g); eauto.
Qed.

Lemma solveSudoku_solves_witness :
  valid_board one_blank = true ∧ solution_of one_blank solution1 ∧
  (∀ g', solution_of one_blank g' → g' = solution1) ∧
  ∃ s' out,
    solveSudoku fresh one_blank = Ret (s', out) ∧
    (∀ r c, r < 9 → c < 9 → ∃ d, holds out r c d) ∧
    solved out = true ∧ out = solution1.
Proof.
  split_and!; [reflexivity|apply one_blank_solution|apply one_blank_only_solution|].
  apply (solveSudoku_solves one_blank solution1);
    [reflexivity|apply one_blank_solution|apply one_blank_only_solution].
Defined.

(** C2.  On a run from a fresh solver the masks are consistent with the grid
    in the state that [init] leaves, in the state after every "place digit"
    and every "backtrack" block of [dfs], and in the final state: bit [d] is
    set in the mask of a row, column or box exactly when a cell of it holds
    the digit [d + 1]. *)
Theorem mask_consistency_invariant (b : Board) :
  valid_board b = true →
  ∃ s0 ok st' tr,
    init fresh b = Ret s0 ∧ dfs (s0, b) 0 = Ret (ok, st', tr) ∧
    Forall mask_consistent ((s0, b) :: tr ++ [st']).
Proof.
  intros Hb. apply run_states; [done|]. intros j st Hinv. apply (inv_mc _ _ _ Hinv).
Qed.

Lemma mask_consistency_invariant_witness :
  valid_board puzzle1 = true ∧
  ∃ s0 ok st' tr,
    init fresh puzzle1 = Ret s0 ∧ dfs (s0, puzzle1) 0 = Ret (ok, st', tr) ∧
    Forall mask_consistent ((s0, puzzle1) :: tr ++ [st']).
Proof.
  split; [reflexivity|]. apply (mask_consistency_invariant puzzle1). reflexivity.
Defined.

(** C3.  [dfs] is private: it is called by [solveSudoku] right after [init]
    and by itself right after a "place digit" block.  For every solver,
    whatever its masks hold, every 9 by 9 board and every call
    [dfs(board, idx)] that [solveSudoku] makes on them, the call returns a
    boolean (no undefined behaviour), and when that boolean is [false] the
    grid, the three mask arrays and [empties] are exactly what they were at
    the call. *)
Theorem dfs_failure_atomic (s : Solution) (b : Board) (st : St) (idx : nat) :
  masks9 s → shape9 b → called s b st idx →
  (∃ out, dfs st idx = Ret out) ∧
  ∀ st' tr, dfs st idx = Ret (false, st', tr) → st' = st.
Proof.
  intros Hm Hs Hcall. pose proof (called_wf _ _ _ _ Hm Hs Hcall) as Hwf. split.
  - apply dfs_fuel_total; [by apply wf_sized|lia].
  - intros st' tr H. by eapply dfs_fuel_fail.
Qed.

Lemma entry_state_called (b : Board) :
  valid_board b = true → called fresh b (entry_state b) 0.
Proof.
  intros Hb. unfold entry_state.
  destruct (init_spec fresh b Hb masks9_fresh) as (s0 & Hinit & _).
  rewrite Hinit. by apply called_root.
Qed.

(** On [dead_end] the loop of the root call skips the digits 1 to 7 on the
    cell [(0, 7)], places an 8 and calls [dfs(board, 1)]; that call fails,
    and the loop reaches the digit 9 in the state it started in. *)
Lemma dead_end_first_digit :
  loop_at (entry_state dead_end) 0 0 7 7 (entry_state dead_end).
Proof.
  exists 127%Z, 0%Z, 64%Z, []. split_and!; [reflexivity..|lia| |reflexivity].
  by vm_compute.
Qed.

Lemma dead_end_second_digit :
  loop_at (entry_state dead_end) 0 0 7 8 (entry_state dead_end).
Proof.
  exists 127%Z, 0%Z, 64%Z, [dead_end_placed; entry_state dead_end].
  split_and!; [reflexivity..|lia| |reflexivity]. by vm_compute.
Qed.

Lemma dead_end_placed_called : called fresh dead_end dead_end_placed (0 + 1).
Proof.
  apply (called_rec fresh dead_end (entry_state dead_end) 0 0 7 7 (entry_state dead_end)).
  - by apply entry_state_called.
  - exact dead_end_first_digit.
  - by vm_compute.
Qed.

Lemma dfs_failure_atomic_witness :
  masks9 fresh ∧ shape9 dead_end ∧ called fresh dead_end (entry_state dead_end) 0 ∧
  called fresh dead_end dead_end_placed (0 + 1) ∧
  (∃ tr, dfs (entry_state dead_end) 0 = Ret (false, entry_state dead_end, tr)
         ∧ length tr = 4) ∧
  (∃ out, dfs (entry_state dead_end) 0 = Ret out) ∧
  ∀ st' tr, dfs (entry_state dead_end) 0 = Ret (false, st', tr) →
            st' = entry_state dead_end.
Proof.
  assert (shape9 dead_end) as Hs by (by apply valid_board_shape).
  assert (called fresh dead_end (entry_state dead_end) 0) as Hc
    by (by apply entry_state_called).
  split; [exact masks9_fresh|]. split; [exact Hs|]. split; [exact Hc|].
  split; [exact dead_end_placed_called|]. split.
  - eexists. split; [by vm_compute|reflexivity].
  - apply (dfs_failure_atomic fresh dead_end (entry_state dead_end) 0);
      [exact masks9_fresh|exact Hs|exact Hc].
Defined.

(** C4.  The "place digit" block runs only behind the test of line 74, on
    the cell [empties[idx]].  For every solver, whatever its masks hold,
    every 9 by 9 board and every point at which [solveSudoku] on them
    reaches a "place digit" block (a call [dfs(board, idx)] it makes, the
    cell [(r, c)] of that call, a counter [d] that passes the test, the
    state [st0] there): the cell is empty, and the "backtrack" block right
    after the "place digit" block gives back exactly the grid and the three
    mask arrays of [st0]. *)
Theorem place_backtrack_restores (s : Solution) (b : Board) (st : St)
    (idx r c d : nat) (st0 : St) :
  masks9 s → shape9 b → called s b st idx → loop_at st idx r c d st0 →
  cell st0.2 r c = Some dot ∧ candidate st0.1 r c d ∧
  ∃ st1, place st0 r c d = Ret st1 ∧ backtrack st1 r c d = Ret st0.
Proof.
  intros Hm Hs Hcall Hloop.
  pose proof (called_wf _ _ _ _ Hm Hs Hcall) as Hwf.
  pose proof (loop_at_eq _ _ _ _ _ _ (wf_dot _ _ Hwf) Hloop) as ->.
  destruct Hloop as (rm & cm & bm & tr & He & Hr & Hc & Hb & Hd & _ & Hbit).
  assert (cell st.2 r c = Some dot) as Hdot.
  { apply (wf_dot _ _ Hwf). rewrite (drop_lookup_cons _ _ _ He). left. }
  assert (r < 9 ∧ c < 9) as [Hr9 Hc9].
  { apply (wf_range _ _ Hwf). by eapply list_elem_of_lookup_2. }
  assert (candidate st.1 r c d) as Hcand by (by exists rm, cm, bm).
  destruct (place_total st r c d (wf_shape _ _ Hwf) (wf_masks _ _ Hwf) Hr9 Hc9)
    as [st1 Hp].
  split; [exact Hdot|]. split; [exact Hcand|].
  exists st1. split; [exact Hp|]. by apply place_backtrack.
Qed.

Lemma place_backtrack_restores_witness :
  masks9 fresh ∧ shape9 dead_end ∧ called fresh dead_end (entry_state dead_end) 0 ∧
  loop_at (entry_state dead_end) 0 0 7 8 (entry_state dead_end) ∧
  cell (entry_state dead_end).2 0 7 = Some dot ∧
  candidate (entry_state dead_end).1 0 7 8 ∧
  ∃ st1, place (entry_state dead_end) 0 7 8 = Ret st1 ∧
         backtrack st1 0 7 8 = Ret (entry_state dead_end).
Proof.
  assert (shape9 dead_end) as Hs by (by apply valid_board_shape).
  assert (called fresh dead_end (entry_state dead_end) 0) as Hc
    by (by apply entry_state_called).
  split; [exact masks9_fresh|]. split; [exact Hs|]. split; [exact Hc|].
  split; [exact dead_end_second_digit|].
  apply (place_backtrack_restores fresh dead_end (entry_state dead_end) 0 0 7 8
           (entry_state dead_end));
    [exact masks9_fresh|exact Hs|exact Hc|exact dead_end_second_digit].
Defined.

(** C5.  On every 9 by 9 board of digits and dots, with or without a
    completion, [init] and the search return: [dfs] gives the same result
    for every bound on the recursion depth above the number of empty cells,
    which is at most 81.  The search returns [true] exactly when it has
    reached the end of [empties], every cell of the grid then holding a
    digit; and on a board with exactly one solution it returns [true] with
    the grid fully and validly filled, a solution of the input. *)
Theorem search_terminates (b : Board) :
  valid_board b = true →
  ∃ s0 ok st' tr,
    init fresh b = Ret s0 ∧ length (empties s0) ≤ 81 ∧
    (∀ fuel, length (empties s0) < fuel → dfs_fuel fuel (s0, b) 0 = Ret (ok, st', tr)) ∧
    dfs (s0, b) 0 = Ret (ok, st', tr) ∧
    (ok = true ↔ ∀ r c, r < 9 → c < 9 → ∃ d, holds st'.2 r c d) ∧
    ((∃ g, solution_of b g ∧ ∀ g', solution_of b g' → g' = g) →
     ok = true ∧ solution_of b st'.2).
Proof.
  intros Hb.
  destruct (run_spec b Hb) as (s0 & ok & st' & tr & Hinit & He & Hinv & Hrun & Hend & Htr).
  exists s0, ok, st', tr.
  split; [exact Hinit|]. split.
  { rewrite He. unfold empty_cells. etrans; [apply length_filter|done]. }
  split; [exact Hrun|]. split; [by apply dfs_run|]. split.
  - split.
    + intros ->. by destruct (inv_full b st' Hend) as (_ & Hfull & _).
    + intros Hfull. destruct ok; [done|]. exfalso. subst st'. simpl in Hfull.
      pose proof (Hrun _ (Nat.lt_succ_diag_r _)) as H.
      apply dfs_fuel_inv in H
        as (fuel' & _ & [[_ [=]]|(r & c & rm & cm & bm & Hl & _)]).
      simpl in Hl. rewrite He in Hl. apply list_elem_of_lookup_2 in Hl.
      apply elem_of_empty_cells in Hl as (Hr & Hc & Hdot).
      destruct (Hfull r c Hr Hc) as [d Hd]. by eapply holds_not_dot.
  - intros (g & Hg & _). destruct ok.
    + split; [done|]. apply success_solves; [|exact Hend].
      destruct Hg as [Hs Hext]. eapply distinct_extends; [by apply solved_distinct|done].
    + exfalso. eapply (failure_no_solution b s0 _ st' tr g); eauto.
Qed.

Lemma search_terminates_witness :
  valid_board one_blank = true ∧
  (∃ g, solution_of one_blank g ∧ ∀ g', solution_of one_blank g' → g' = g) ∧
  ∃ s0 st' tr,
    init fresh one_blank = Ret s0 ∧ length (empties s0) ≤ 81 ∧
    dfs (s0, one_blank) 0 = Ret (true, st', tr) ∧
    (∀ r c, r < 9 → c < 9 → ∃ d, holds st'.2 r c d) ∧
    solution_of one_blank st'.2.
Proof.
  assert (∃ g, solution_of one_blank g ∧ ∀ g', solution_of one_blank g' → g' = g) as Hone.
  { exists solution1. split; [apply one_blank_solution|apply one_blank_only_solution]. }
  split; [reflexivity|]. split; [exact Hone|].
  assert (valid_board one_blank = true) as Hv by reflexivity.
  destruct (search_terminates one_blank Hv)
    as (s0 & ok & st' & tr & Hinit & Hlen & _ & Hrun & Hfull & Hok).
  destruct (Hok Hone) as [Htrue Hsol]. rewrite Htrue in Hrun.
  exists s0, st', tr.
  split; [exact Hinit|]. split; [exact Hlen|]. split; [exact Hrun|].
  split; [exact (proj1 Hfull Htrue)|exact Hsol].
Defined.

(** C6.  On a run from a fresh solver, in the state that [init] leaves, in
    the state after every "place digit" and every "backtrack" block, and in
    the final state, every cell that held a digit in the input holds that
    digit, and [empties] is the list that [init] built. *)
Theorem solveSudoku_frame (b : Board) :
  valid_board b = true →
  ∃ s0 ok st' tr,
    init fresh b = Ret s0 ∧ dfs (s0, b) 0 = Ret (ok, st', tr) ∧
    Forall (λ st : St,
              (∀ r c ch, cell b r c = Some ch → ch ≠ dot → cell st.2 r c = Some ch) ∧
              empties st.1 = empties s0)
           ((s0, b) :: tr ++ [st']).
Proof.
  intros Hb.
  destruct (init_spec fresh b Hb masks9_fresh) as (s0 & Hinit & _ & He & _).
  destruct (run_states b
    (λ st : St,
       (∀ r c ch, cell b r c = Some ch → ch ≠ dot → cell st.2 r c = Some ch) ∧
       empties st.1 = empties s0) Hb) as (s0' & ok & st' & tr & Hinit' & Hrun & Hall).
  - intros j st Hinv. split.
    + intros r c ch Hch Hne. rewrite (inv_rest _ _ _ Hinv); [done|].
      intros (_ & _ & Hdot)%elem_of_empty_cells. congruence.
    + rewrite (inv_empties _ _ _ Hinv). done.
  - assert (s0' = s0) as -> by congruence. by exists s0, ok, st', tr.
Qed.

Lemma solveSudoku_frame_witness :
  valid_board puzzle1 = true ∧
  ∃ s0 ok st' tr,
    init fresh puzzle1 = Ret s0 ∧ dfs (s0, puzzle1) 0 = Ret (ok, st', tr) ∧
    Forall (λ st : St,
              (∀ r c ch, cell puzzle1 r c = Some ch → ch ≠ dot → cell st.2 r c = Some ch) ∧
              empties st.1 = empties s0)
           ((s0, puzzle1) :: tr ++ [st']).
Proof.
  split; [reflexivity|]. apply (solveSudoku_frame puzzle1). reflexivity.
Defined.

(** C7.  From a fresh solver, [init] on a 9 by 9 board of digits and dots
    returns with [empties] the coordinates of the '.' cells in row-major
    order, and with bit [d] set in [rowMask[i]], [colMask[i]], [boxMask[i]]
    exactly when a cell of that row, column or box (box index
    [(r/3)*3 + c/3]) holds the digit [d + 1]; no other bit is set. *)
Theorem init_fresh (b : Board) :
  valid_board b = true →
  ∃ s0,
    init fresh b = Ret s0 ∧ masks9 s0 ∧
    empties s0 = filter (λ rc, cell b rc.1 rc.2 = Some dot) all_cells ∧
    ∀ k i d, mask_bit s0 k i d ↔
             ∃ r c, r < 9 ∧ c < 9 ∧ house_of k r c = i ∧ holds b r c d.
Proof.
  intros Hb.
  destruct (init_spec fresh b Hb masks9_fresh) as (s0 & Hinit & Hm & He & Hbits).
  exists s0. split_and!; try done.
  intros k i d. rewrite Hbits. split; [|by right].
  intros [[]%mask_bit_fresh|?]; done.
Qed.

Lemma init_fresh_witness :
  valid_board puzzle1 = true ∧
  ∃ s0,
    init fresh puzzle1 = Ret s0 ∧ masks9 s0 ∧
    empties s0 = filter (λ rc, cell puzzle1 rc.1 rc.2 = Some dot) all_cells ∧
    ∀ k i d, mask_bit s0 k i d ↔
             ∃ r c, r < 9 ∧ c < 9 ∧ house_of k r c = i ∧ holds puzzle1 r c d.
Proof.
  split; [reflexivity|]. apply (init_fresh puzzle1). reflexivity.
Defined.




(** C9, as amended.  On a 9 by 9 board of digits and dots whose givens have
    no digit twice in a row, column or box and which has no solution, the
    search returns [false] and the board and the solver are what [init]
    left: the board is the input board.  [solveSudoku] returns that state
    and not the boolean. *)
Theorem unsolvable_board_restored (b : Board) :
  valid_board b = true → distinct b → (∀ g, ¬ solution_of b g) →
  ∃ s0 tr,
    init fresh b = Ret s0 ∧ dfs (s0, b) 0 = Ret (false, (s0, b), tr) ∧
    solveSudoku fresh b = Ret (s0, b).
Proof.
  intros Hb Hdist Hnone.
  destruct (run_spec b Hb) as (s0 & ok & st' & tr & Hinit & He & Hinv & Hrun & Hend & Htr).
  pose proof (dfs_run _ _ _ Hrun) as Hdfs.
  destruct (solveSudoku_of_run _ _ _ _ _ Hinit Hdfs) as [_ Hsolve].
  destruct ok.
  - exfalso. apply (Hnone st'.2). by apply success_solves.
  - subst st'. by exists s0, tr.
Qed.

Lemma dead_end_fails :
  ∃ s0 st' tr, init fresh dead_end = Ret s0 ∧ dfs (s0, dead_end) 0 = Ret (false, st', tr).
Proof. eexists _, _, _. split; [by vm_compute|]. by vm_compute. Qed.

Lemma dead_end_no_solution (g : Board) : ¬ solution_of dead_end g.
Proof.
  destruct dead_end_fails as (s0 & st' & tr & Hinit & Hrun).
  by eapply (failure_no_solution dead_end s0 _ st' tr g).
Qed.

Lemma unsolvable_board_restored_witness :
  valid_board dead_end = true ∧ distinct dead_end ∧ (∀ g, ¬ solution_of dead_end g) ∧
  ∃ s0 tr,
    init fresh dead_end = Ret s0 ∧ dfs (s0, dead_end) 0 = Ret (false, (s0, dead_end), tr) ∧
    solveSudoku fresh dead_end = Ret (s0, dead_end).
Proof.
  assert (distinct dead_end) as Hd by (by apply distinctb_distinct).
  split_and!; [reflexivity|exact Hd|exact dead_end_no_solution|].
  apply (unsolvable_board_restored dead_end); [reflexivity|exact Hd|exact dead_end_no_solution].
Defined.

(** C9 as stated fails on a board whose givens already break a row: no
    solution exists, yet the search fills the empty cell, returns [true] and
    leaves a board that is not the input board. *)
Lemma unsolvable_board_cex :
  valid_board twice_seven = true ∧ (∀ g, ¬ solution_of twice_seven g) ∧
  ∃ s0 st' tr,
    init fresh twice_seven = Ret s0 ∧
    dfs (s0, twice_seven) 0 = Ret (true, st', tr) ∧
    cell twice_seven 0 0 = Some dot ∧ cell st'.2 0 0 = Some "5"%char ∧
    st'.2 ≠ twice_seven.
Proof.
  split; [reflexivity|]. split.
  - intros g [Hs Hext].
    assert (holds twice_seven 8 7 6) as H1 by (split; [lia|reflexivity]).
    assert (holds twice_seven 8 8 6) as H2 by (split; [lia|reflexivity]).
    assert (8 < 9) as H8 by lia. assert (7 < 9) as H7 by lia.
    pose proof (solved_distinct g Hs Row 8 7 8 8 6 H8 H7 H8 H8 eq_refl
                  (Hext _ _ _ H1) (Hext _ _ _ H2)) as Heq.
    discriminate Heq.
  - eexists _, _, _. split; [by vm_compute|]. split; [by vm_compute|].
    split; [reflexivity|]. split; [reflexivity|].
    intros H%(f_equal (λ b : Board, cell b 0 0)). vm_compute in H. discriminate H.
Qed.

(** C10.  [init] starts from the masks the solver already holds: every bit
    set before is set after, while [empties] is rebuilt from the board
    alone.  So a second [solveSudoku] on the same solver starts from stale
    masks: after solving [puzzle1], [init] on the blank board leaves bit 0
    set in [rowMask[0]] although no cell of that board holds a 1, the masks
    are not consistent with the grid, and the second [solveSudoku] leaves the
    blank board as it is. *)
Theorem init_keeps_stale_masks :
  (∀ s b s0 k i d,
     valid_board b = true → masks9 s → init s b = Ret s0 →
     empties s0 = empty_cells b ∧ (mask_bit s k i d → mask_bit s0 k i d)) ∧
  ∃ s1 g1 s2,
    solveSudoku fresh puzzle1 = Ret (s1, g1) ∧ puzzle1 ≠ blank_board ∧
    valid_board blank_board = true ∧ init s1 blank_board = Ret s2 ∧
    mask_bit s2 Row 0 0 ∧
    (¬ ∃ r c, r < 9 ∧ c < 9 ∧ house_of Row r c = 0 ∧ holds blank_board r c 0) ∧
    ¬ mask_consistent (s2, blank_board) ∧
    solveSudoku s1 blank_board = Ret (s2, blank_board).
Proof.
  split.
  - intros s b s0 k i d Hb Hm Hinit.
    destruct (init_spec s b Hb Hm) as (s0' & Hinit' & _ & He & Hbits).
    assert (s0' = s0) as -> by congruence. split; [done|].
    intros H. apply Hbits. by left.
  - eexists _, _, _. split; [by vm_compute|]. split; [discriminate|].
    split; [reflexivity|]. split; [by vm_compute|].
    match goal with |- ?A ∧ ?B ∧ _ => assert A as Hbit; [|assert B as Hnone] end.
    + eexists. split; [by vm_compute|reflexivity].
    + intros (r & c & Hr & Hc & Hrow & _ & Hcell). simpl in Hrow. subst r.
      do 9 (destruct c as [|c]; [discriminate Hcell|]). lia.
    + split_and!; [exact Hbit|exact Hnone| |by vm_compute].
      intros Hmc. apply Hnone. apply (Hmc Row 0 0); [lia|exact Hbit].
Qed.

(** * Further properties of the code *)

(** ** What a call may touch *)

(** X1.  In every state, whatever [empties] and the masks hold, a call
    [dfs(board, idx)] that returns [false] leaves [rowMask], [colMask],
    [boxMask] and [empties] exactly as they were, and the board differs at
    most on cells that [empties] lists from [idx] on, which then hold '.'. *)
Theorem dfs_failure_keeps_solver (st : St) (idx : nat) (st' : St) (tr : list St) :
  dfs st idx = Ret (false, st', tr) →
  st'.1 = st.1 ∧
  ∀ r c, cell st'.2 r c = cell st.2 r c ∨
         ((r, c) ∈ drop idx (empties st.1) ∧ cell st'.2 r c = Some dot).
Proof.
  intros H. destruct (dfs_fuel_restored _ _ _ _ _ H) as (Hs & _ & Hcells). done.
Qed.

Lemma dfs_failure_keeps_solver_witness :
  ∃ st' tr,
    dfs five_listed 0 = Ret (false, st', tr) ∧
    st'.1 = five_listed.1 ∧
    ∀ r c, cell st'.2 r c = cell five_listed.2 r c ∨
           ((r, c) ∈ drop 0 (empties five_listed.1) ∧ cell st'.2 r c = Some dot).
Proof.
  eexists _, _. split; [by vm_compute|].
  eapply (dfs_failure_keeps_solver five_listed 0). by vm_compute.
Defined.

(** X2.  In every state, a call [dfs(board, idx)] that returns, with either
    boolean, never modifies [empties] and never writes a cell that [empties]
    does not list from [idx] on: this holds after every "place digit" and
    "backtrack" block of the call and in the state it leaves. *)
Theorem dfs_touches_only_listed (st : St) (idx : nat) (ok : bool) (st' : St)
    (tr : list St) :
  dfs st idx = Ret (ok, st', tr) →
  Forall (λ x : St,
            empties x.1 = empties st.1 ∧
            ∀ r c, (r, c) ∉ drop idx (empties st.1) → cell x.2 r c = cell st.2 r c)
         (tr ++ [st']).
Proof.
  intros H. destruct (dfs_fuel_touched _ _ _ _ H) as [Hend Htr]. simpl in Hend, Htr.
  apply Forall_app. split.
  - eapply Forall_impl; [exact Htr|]. by intros x (? & _ & ?).
  - constructor; [|constructor]. by destruct Hend as (? & _ & ?).
Qed.

Lemma dfs_touches_only_listed_witness :
  ∃ st' tr,
    dfs five_listed 1 = Ret (true, st', tr) ∧ length tr = 1 ∧
    Forall (λ x : St,
              empties x.1 = empties five_listed.1 ∧
              ∀ r c, (r, c) ∉ drop 1 (empties five_listed.1) →
                     cell x.2 r c = cell five_listed.2 r c)
           (tr ++ [st']).
Proof.
  eexists _, _. split; [by vm_compute|]. split; [reflexivity|].
  eapply (dfs_touches_only_listed five_listed 1 true). by vm_compute.
Defined.

(** X3.  On a 9 by 9 board of digits with no '.', whatever masks the solver
    holds and whether or not the board obeys the Sudoku rules, [init]
    returns with an empty [empties], [dfs] returns [true] at once, no cell
    is written, and the board is returned as it was. *)
Theorem full_board_untouched (s : Solution) (b : Board) :
  valid_board b = true → masks9 s → empty_cells b = [] →
  ∃ s0, init s b = Ret s0 ∧ empties s0 = [] ∧
        solveSudoku_run s b = Ret (true, (s0, b), []) ∧
        solveSudoku s b = Ret (s0, b).
Proof.
  intros Hb Hm Hfull.
  destruct (init_spec s b Hb Hm) as (s0 & Hinit & _ & He & _).
  rewrite Hfull in He. exists s0. split_and!; try done.
  - unfold solveSudoku_run. rewrite Hinit. simpl. unfold dfs. simpl.
    by rewrite He.
  - unfold solveSudoku, solveSudoku_run. rewrite Hinit. simpl. unfold dfs. simpl.
    by rewrite He.
Qed.

Lemma full_board_untouched_witness :
  valid_board all_ones = true ∧ masks9 fresh ∧ empty_cells all_ones = [] ∧
  solved all_ones = false ∧
  ∃ s0, init fresh all_ones = Ret s0 ∧ empties s0 = [] ∧
        solveSudoku_run fresh all_ones = Ret (true, (s0, all_ones), []) ∧
        solveSudoku fresh all_ones = Ret (s0, all_ones).
Proof.
  split; [reflexivity|]. split; [exact masks9_fresh|]. split; [reflexivity|].
  split; [by vm_compute|].
  apply (full_board_untouched fresh all_ones); [reflexivity|exact masks9_fresh|reflexivity].
Defined.

(** X4.  On a 9 by 9 board of digits and dots whose givens have no digit
    twice in a row, column or box, the search decides solvability: if it
    returns [true] the board left is a solution of the input (also when the
    input has several), and if it returns [false] the input has no solution
    and the board is left as it was. *)
Theorem search_decides (b : Board) :
  valid_board b = true → distinct b →
  ∃ ok st' tr,
    solveSudoku_run fresh b = Ret (ok, st', tr) ∧
    if ok then solution_of b st'.2 else st'.2 = b ∧ ∀ g, ¬ solution_of b g.
Proof.
  intros Hb Hdist.
  destruct (run_spec b Hb) as (s0 & ok & st' & tr & Hinit & He & Hinv & Hrun & Hend & Htr).
  pose proof (dfs_run _ _ _ Hrun) as Hdfs.
  destruct (solveSudoku_of_run _ _ _ _ _ Hinit Hdfs) as [Hsolve _].
  exists ok, st', tr. split; [done|]. destruct ok.
  - by apply success_solves.
  - subst st'. split; [done|]. intros g.
    eapply (failure_no_solution b s0 _ (s0, b) tr g); eauto.
Qed.

Lemma search_decides_witness :
  valid_board puzzle1 = true ∧ distinct puzzle1 ∧
  ∃ ok st' tr,
    solveSudoku_run fresh puzzle1 = Ret (ok, st', tr) ∧
    if ok then solution_of puzzle1 st'.2
    else st'.2 = puzzle1 ∧ ∀ g, ¬ solution_of puzzle1 g.
Proof.
  assert (distinct puzzle1) as Hd by (by apply distinctb_distinct).
  split; [reflexivity|]. split; [exact Hd|].
  apply (search_decides puzzle1); [reflexivity|exact Hd].
Defined.

(** ** Masks as sets of bits *)

(** Two solvers whose mask arrays have 9 entries and the same bits set have
    the same mask arrays. *)
Lemma mask_eq_bits (s s' : Solution) :
  masks9 s → masks9 s' →
  (∀ k i d, mask_bit s' k i d ↔ mask_bit s k i d) →
  ∀ k, mask_of k s' = mask_of k s.
Proof.
  intros Hm Hm' Hbits k. apply list_eq. intros i.
  destruct (mask_of k s' !! i) as [m'|] eqn:E', (mask_of k s !! i) as [m|] eqn:E.
  - f_equal. apply Z.bits_inj'. intros n Hn.
    replace n with (Z.of_nat (Z.to_nat n)) by lia.
    specialize (Hbits k i (Z.to_nat n)). unfold mask_bit in Hbits.
    rewrite E, E' in Hbits.
    destruct (Z.testbit m' _) eqn:B', (Z.testbit m _) eqn:B; try done.
    + destruct Hbits as [Hbits _]. destruct Hbits as (x & [= <-] & Hx); [eauto|]. congruence.
    + destruct Hbits as [_ Hbits]. destruct Hbits as (x & [= <-] & Hx); [eauto|]. congruence.
  - apply lookup_lt_Some in E'. apply lookup_ge_None in E. rewrite (Hm k) in E.
    rewrite (Hm' k) in E'. lia.
  - apply lookup_lt_Some in E. apply lookup_ge_None in E'. rewrite (Hm k) in E.
    rewrite (Hm' k) in E'. lia.
  - done.
Qed.

(** A mask whose bits are among the low nine is a 9-bit number. *)
Lemma nine_bits_range (m : Z) :
  (∀ d, Z.testbit m (Z.of_nat d) = true → d < 9) → (0 ≤ m < 512)%Z.
Proof.
  intros H. split.
  - destruct (Z.neg_nonneg_cases m) as [Hneg|]; [|done]. exfalso.
    apply Z.bits_iff_neg_ex in Hneg as [k Hk].
    specialize (Hk (Z.max (k + 1) 9)). rewrite <- (Z2Nat.id (Z.max (k + 1) 9)) in Hk by lia.
    specialize (H (Z.to_nat (Z.max (k + 1) 9))).
    assert (Z.to_nat (Z.max (k + 1) 9) < 9) by (apply H, Hk; lia). lia.
  - destruct (Z.lt_ge_cases m 512) as [|Hge]; [done|]. exfalso.
    assert (0 < m)%Z as Hpos by lia.
    pose proof (Z.bit_log2 m Hpos) as Hbit.
    assert (9 ≤ Z.log2 m)%Z as Hlog by (apply (Z.log2_le_pow2 m 9); lia).
    rewrite <- (Z2Nat.id (Z.log2 m)) in Hbit by lia.
    apply H in Hbit. lia.
Qed.

Lemma mask_consistent_range (st : St) (k : house) (i : nat) (m : Z) :
  mask_consistent st → i < 9 → mask_of k st.1 !! i = Some m → (0 ≤ m < 512)%Z.
Proof.
  intros Hmc Hi Hm. apply nine_bits_range. intros d Hbit.
  assert (mask_bit st.1 k i d) as Hmb by (by exists m).
  apply Hmc in Hmb as (r & c & _ & _ & _ & Hd & _); done.
Qed.

(** X5.  On a run from a fresh solver on a 9 by 9 board of digits and dots,
    every entry of [rowMask], [colMask] and [boxMask] stays a 9-bit number,
    at least 0 and below 512, in the state [init] leaves, after every "place
    digit" and "backtrack" block and at the end: no bit above bit 8 is ever
    set and no mask becomes negative. *)
Theorem masks_stay_nine_bits (b : Board) :
  valid_board b = true →
  ∃ s0 ok st' tr,
    init fresh b = Ret s0 ∧ dfs (s0, b) 0 = Ret (ok, st', tr) ∧
    Forall (λ st : St, ∀ k i m, mask_of k st.1 !! i = Some m → (0 ≤ m < 512)%Z)
           ((s0, b) :: tr ++ [st']).
Proof.
  intros Hb. apply run_states; [done|]. intros j st Hinv k i m Hm.
  apply (mask_consistent_range st k i m (inv_mc _ _ _ Hinv)); [|done].
  apply lookup_lt_Some in Hm.
  rewrite (wf_masks _ _ (inv_wf _ _ _ Hinv) k) in Hm. done.
Qed.

Lemma masks_stay_nine_bits_witness :
  valid_board puzzle1 = true ∧
  ∃ s0 ok st' tr,
    init fresh puzzle1 = Ret s0 ∧ dfs (s0, puzzle1) 0 = Ret (ok, st', tr) ∧
    Forall (λ st : St, ∀ k i m, mask_of k st.1 !! i = Some m → (0 ≤ m < 512)%Z)
           ((s0, puzzle1) :: tr ++ [st']).
Proof.
  split; [reflexivity|]. apply (masks_stay_nine_bits puzzle1). reflexivity.
Defined.

(** ** [init] again *)

Lemma init_again (s s0 : Solution) (b : Board) :
  valid_board b = true → masks9 s → init s b = Ret s0 → init s0 b = Ret s0.
Proof.
  intros Hb Hm Hinit.
  destruct (init_spec s b Hb Hm) as (s0' & Hinit' & Hm0 & He0 & Hbits0).
  assert (s0' = s0) as -> by congruence.
  destruct (init_spec s0 b Hb Hm0) as (s1 & Hinit1 & Hm1 & He1 & Hbits1).
  rewrite Hinit1. f_equal. apply solution_eq; [|congruence].
  apply mask_eq_bits; try done. intros k i d. rewrite Hbits1. split; [|by left].
  intros [H|H]; [done|]. apply Hbits0. by right.
Qed.

(** X6.  [init] is idempotent: on a solver in the state that [init] left for
    a board, [init] on the same board returns the same state, masks and
    [empties]; so [solveSudoku] called again on that solver state and board
    runs exactly as the first call did. *)
Theorem init_idempotent (s s0 : Solution) (b : Board) :
  valid_board b = true → masks9 s → init s b = Ret s0 →
  init s0 b = Ret s0 ∧ solveSudoku_run s0 b = solveSudoku_run s b.
Proof.
  intros Hb Hm Hinit. pose proof (init_again s s0 b Hb Hm Hinit) as Hagain.
  split; [done|]. unfold solveSudoku_run. by rewrite Hagain, Hinit.
Qed.

Lemma init_idempotent_witness :
  valid_board puzzle1 = true ∧ masks9 fresh ∧
  init fresh puzzle1 = Ret (entry_state puzzle1).1 ∧
  init (entry_state puzzle1).1 puzzle1 = Ret (entry_state puzzle1).1 ∧
  solveSudoku_run (entry_state puzzle1).1 puzzle1 = solveSudoku_run fresh puzzle1.
Proof.
  assert (init fresh puzzle1 = Ret (entry_state puzzle1).1) as Hinit by (by vm_compute).
  split; [reflexivity|]. split; [exact masks9_fresh|]. split; [exact Hinit|].
  apply (init_idempotent fresh (entry_state puzzle1).1 puzzle1);
    [reflexivity|exact masks9_fresh|exact Hinit].
Defined.

(** ** A solver that has solved a board *)

Lemma try_digits_all_used (rec : St → res Out) (r c : nat) (used : Z) (ds : list nat)
    (st : St) :
  (∀ d, d ∈ ds → Z.land used (bit_of d) ≠ 0%Z) →
  try_digits rec r c used ds st = Ret (false, st, []).
Proof.
  induction ds as [|d ds IH]; intros H; [done|].
  rewrite try_digits_skip by (apply H; left). apply IH. intros d' Hd'. apply H. by right.
Qed.

Lemma testbit_511 (d : nat) : Z.testbit 511 (Z.of_nat d) = bool_decide (d < 9).
Proof.
  change 511%Z with (Z.ones 9). case_bool_decide.
  - apply Z.ones_spec_low. lia.
  - apply Z.ones_spec_high. lia.
Qed.

Lemma success_masks_full (b : Board) (st' : St) :
  distinct b → inv b (length (empty_cells b)) st' →
  ∀ k i, i < 9 → mask_of k st'.1 !! i = Some 511%Z.
Proof.
  intros Hdist Hinv k i Hi.
  destruct (success_solves b st' Hdist Hinv) as [Hs _].
  pose proof (inv_mc _ _ _ Hinv) as Hmc.
  pose proof (wf_masks _ _ (inv_wf _ _ _ Hinv) k) as Hlen.
  destruct (lookup_lt_is_Some_2 (mask_of k st'.1) i) as [m Hm]; [lia|].
  rewrite Hm. f_equal. apply Z.bits_inj'. intros n Hn.
  replace n with (Z.of_nat (Z.to_nat n)) by lia. rewrite testbit_511.
  case_bool_decide as Hd.
  - apply solved_spec in Hs as [_ Hocc].
    destruct (occurrences_pos st'.2 (house_cells k i) (digit_char (Z.to_nat n)))
      as (r & c & (Hr & Hc & Hh)%elem_of_house_cells & Hcell).
    { rewrite Hocc by done. lia. }
    assert (mask_bit st'.1 k i (Z.to_nat n)) as (m' & Hm' & Hbit).
    { apply Hmc; [done|]. exists r, c. by split_and!. }
    congruence.
  - destruct (Z.testbit m _) eqn:Hbit; [|done]. exfalso. apply Hd.
    assert (mask_bit st'.1 k i (Z.to_nat n)) as Hmb by (by exists m).
    apply Hmc in Hmb as (r & c & _ & _ & _ & Hlt & _); done.
Qed.

Lemma full_masks_run (s : Solution) (b : Board) :
  masks9 s → (∀ k i, i < 9 → mask_of k s !! i = Some 511%Z) →
  valid_board b = true → empty_cells b ≠ [] →
  ∃ s2, init s b = Ret s2 ∧ (∀ k, mask_of k s2 = mask_of k s) ∧
        dfs (s2, b) 0 = Ret (false, (s2, b), []).
Proof.
  intros Hm Hfull Hb Hne.
  destruct (init_spec s b Hb Hm) as (s2 & Hinit & Hm2 & He & Hbits).
  assert (∀ k, mask_of k s2 = mask_of k s) as Hsame.
  { apply mask_eq_bits; [exact Hm|exact Hm2|]. intros k i d. rewrite Hbits.
    split; [|by left].
    intros [H|(r & c & Hr & Hc & <- & Hd & _)]; [exact H|].
    exists 511%Z. split; [apply Hfull; by apply house_of_lt|].
    rewrite testbit_511. by apply bool_decide_eq_true. }
  assert (∀ k i, i < 9 → mask_of k s2 !! i = Some 511%Z) as Hfull2.
  { intros k i Hi. rewrite Hsame. by apply Hfull. }
  exists s2. split; [exact Hinit|]. split; [exact Hsame|].
  destruct (empty_cells b) as [|[r c] rest] eqn:Ecells; [by destruct Hne|].
  assert ((r, c) ∈ empty_cells b) as Hin by (rewrite Ecells; left).
  apply elem_of_empty_cells in Hin as (Hr & Hc & _).
  assert (empties (s2, b).1 !! 0 = Some (r, c)) as Hfirst.
  { cbn [fst]. rewrite He. reflexivity. }
  unfold dfs.
  rewrite (dfs_fuel_step _ (s2, b) 0 r c 511 511 511 Hfirst
             (Hfull2 Row r Hr) (Hfull2 Col c Hc)
             (Hfull2 Box (boxIndex r c) (house_of_lt Box r c Hr Hc))).
  apply try_digits_all_used. intros d Hd%elem_of_seq.
  intros H%land_bit_of. change (Z.lor (Z.lor 511 511) 511) with 511%Z in H.
  rewrite testbit_511 in H. apply bool_decide_eq_false in H. lia.
Qed.

(** X7.  After [solveSudoku] has solved a board (givens without repeats, the
    search returned [true]) every entry of the three mask arrays is [0x1FF],
    and since [init] never clears the masks, a later [solveSudoku] on the
    same solver with any 9 by 9 board that has an empty cell finds no
    candidate: the search returns [false] at once, no cell is written and
    that board is returned as it was, solvable or not. *)
Theorem reused_solver_fails (b1 b2 : Board) (s1 : Solution) (g1 : Board)
    (tr : list St) :
  valid_board b1 = true → distinct b1 →
  solveSudoku_run fresh b1 = Ret (true, (s1, g1), tr) →
  valid_board b2 = true → empty_cells b2 ≠ [] →
  (∀ k i, i < 9 → mask_of k s1 !! i = Some 511%Z) ∧
  ∃ s2, solveSudoku_run s1 b2 = Ret (false, (s2, b2), []) ∧
        solveSudoku s1 b2 = Ret (s2, b2).
Proof.
  intros Hb1 Hdist Hrun1 Hb2 Hne.
  destruct (run_spec b1 Hb1) as (s0 & ok & st' & tr' & Hinit & He & Hinv & Hrun & Hend & Htr).
  pose proof (dfs_run _ _ _ Hrun) as Hdfs.
  destruct (solveSudoku_of_run _ _ _ _ _ Hinit Hdfs) as [Hsolve _].
  rewrite Hsolve in Hrun1. injection Hrun1 as -> -> ->.
  pose proof (success_masks_full b1 (s1, g1) Hdist Hend) as Hfull.
  split; [exact Hfull|].
  destruct (full_masks_run s1 b2) as (s2 & Hinit2 & _ & Hdfs2); try done.
  { exact (wf_masks _ _ (inv_wf _ _ _ Hend)). }
  exists s2. unfold solveSudoku, solveSudoku_run. rewrite Hinit2. simpl.
  rewrite Hdfs2. done.
Qed.

Lemma reused_solver_fails_witness :
  valid_board one_blank = true ∧ distinct one_blank ∧
  valid_board puzzle1 = true ∧ empty_cells puzzle1 ≠ [] ∧
  ∃ s1 g1 tr,
    solveSudoku_run fresh one_blank = Ret (true, (s1, g1), tr) ∧
    (∀ k i, i < 9 → mask_of k s1 !! i = Some 511%Z) ∧
    ∃ s2, solveSudoku_run s1 puzzle1 = Ret (false, (s2, puzzle1), []) ∧
          solveSudoku s1 puzzle1 = Ret (s2, puzzle1).
Proof.
  assert (distinct one_blank) as Hd by (by apply distinctb_distinct).
  assert (empty_cells puzzle1 ≠ []) as Hne by (by vm_compute).
  split; [reflexivity|]. split; [exact Hd|]. split; [reflexivity|]. split; [exact Hne|].
  eexists _, _, _. split; [by vm_compute|].
  eapply (reused_solver_fails one_blank puzzle1);
    [reflexivity|exact Hd|by vm_compute|reflexivity|exact Hne].
Defined.

(** ** Which solution the search returns *)

(** X8.  On a 9 by 9 board of digits and dots that has a solution, the
    search returns [true] and the board it leaves is the first solution of
    the input in lexicographic order of the cells read row by row: it is a
    solution, and it comes no later than any solution of the input.  (Cells
    are tried in row-major order and digits in ascending order, and the
    search stops at the first success.) *)
Theorem first_solution_returned (b g : Board) :
  valid_board b = true → solution_of b g →
  ∃ st' tr,
    solveSudoku_run fresh b = Ret (true, st', tr) ∧
    solution_of b st'.2 ∧
    lex_le (code st'.2 <$> all_cells) (code g <$> all_cells).
Proof.
  intros Hb Hg.
  destruct (run_spec b Hb) as (s0 & ok & st' & tr & Hinit & He & Hinv & Hrun & Hend & Htr).
  pose proof (dfs_run _ _ _ Hrun) as Hdfs.
  destruct (solveSudoku_of_run _ _ _ _ _ Hinit Hdfs) as [Hsolve _].
  destruct ok.
  - exists st', tr. split; [exact Hsolve|].
    exact (success_first b s0 st' tr g Hb Hinit Hdfs Hg).
  - exfalso. exact (failure_no_solution b s0 _ _ tr g Hb Hinit Hdfs Hg).
Qed.

Lemma two_ways_swapped_solution : solution_of two_ways solution1_swapped.
Proof.
  split; [by vm_compute|].
  apply extendsb_extends; [by apply valid_board_shape|by vm_compute].
Qed.

Lemma first_solution_returned_witness :
  valid_board two_ways = true ∧ solution_of two_ways solution1_swapped ∧
  solution1 ≠ solution1_swapped ∧
  (∃ s' tr, solveSudoku_run fresh two_ways = Ret (true, (s', solution1), tr)) ∧
  ∃ st' tr,
    solveSudoku_run fresh two_ways = Ret (true, st', tr) ∧
    solution_of two_ways st'.2 ∧
    lex_le (code st'.2 <$> all_cells) (code solution1_swapped <$> all_cells).
Proof.
  split; [reflexivity|]. split; [exact two_ways_swapped_solution|].
  split; [discriminate|]. split; [eexists _, _; by vm_compute|].
  apply (first_solution_returned two_ways solution1_swapped);
    [reflexivity|exact two_ways_swapped_solution].
Defined.

(** ** [boxIndex] *)

(** X9.  On the 9 by 9 grid [boxIndex] takes values below 9, gives two cells
    the same index exactly when they lie in the same 3 by 3 block (same
    [r / 3] and same [c / 3]), and the box of every cell has exactly 9
    cells. *)
Theorem boxIndex_blocks (r c r' c' : nat) :
  r < 9 → c < 9 → r' < 9 → c' < 9 →
  boxIndex r c < 9 ∧
  (boxIndex r c = boxIndex r' c' ↔ r / 3 = r' / 3 ∧ c / 3 = c' / 3) ∧
  length (filter (λ rc, boxIndex rc.1 rc.2 = boxIndex r c) all_cells) = 9.
Proof.
  intros Hr Hc Hr' Hc'.
  assert (∀ x, x < 9 → x / 3 < 3) as Hdiv
    by (intros; apply Nat.Div0.div_lt_upper_bound; lia).
  pose proof (Hdiv r Hr). pose proof (Hdiv c Hc).
  pose proof (Hdiv r' Hr'). pose proof (Hdiv c' Hc').
  split_and!.
  - unfold boxIndex. lia.
  - unfold boxIndex. lia.
  - apply (length_house_cells Box). by apply (house_of_lt Box).
Qed.

Lemma boxIndex_blocks_witness :
  4 < 9 ∧ 7 < 9 ∧ 5 < 9 ∧ 8 < 9 ∧
  boxIndex 4 7 < 9 ∧
  (boxIndex 4 7 = boxIndex 5 8 ↔ 4 / 3 = 5 / 3 ∧ 7 / 3 = 8 / 3) ∧
  length (filter (λ rc, boxIndex rc.1 rc.2 = boxIndex 4 7) all_cells) = 9.
Proof.
  split; [lia|]. split; [lia|]. split; [lia|]. split; [lia|].
  apply (boxIndex_blocks 4 7 5 8); lia.
Defined.

(** ** Boards outside the input contract *)

Lemma init_cell_not_NoFuel (b : Board) (r c : nat) (s : Solution) :
  init_cell b r c s ≠ NoFuel.
Proof.
  unfold init_cell, read, upd, at_, shl1.
  destruct (b !! r) as [row|]; simpl; [|done].
  destruct (row !! c) as [ch|]; simpl; [|done].
  destruct (Ascii.eqb ch dot); [done|].
  repeat case_decide; simpl; try done.
  all: destruct (rowMask s !! r); simpl; [|done].
  all: destruct (colMask s !! c); simpl; [|done].
  all: destruct (boxMask s !! boxIndex r c); simpl; done.
Qed.

Lemma for_each_Undef {X A} (body : X → A → res A) (xs : list X) (x : X) (a : A) :
  (∀ y a', body y a' ≠ NoFuel) → x ∈ xs → (∀ a', body x a' = Undef) →
  for_each xs body a = Undef.
Proof.
  intros Hfuel Hin Hx. revert a. induction xs as [|y xs IH]; intros a;
    [by apply elem_of_nil in Hin|].
  simpl. destruct (body y a) as [a'| |] eqn:E; simpl; [|done|by apply Hfuel in E].
  apply elem_of_cons in Hin as [->|Hin]; [|by apply IH].
  rewrite Hx in E. discriminate E.
Qed.

(** X10.  [init] does not check its input: if some cell of the 9 by 9 grid
    is missing (a board with fewer than 9 rows or a row with fewer than 9
    characters), or holds a character other than '.' whose code is below
    that of '1' or at least that of 'Q', then [init] subscripts out of range
    or shifts [1] by a negative amount or by 32 or more, which is undefined
    behaviour, and so is [solveSudoku], whatever the solver holds. *)
Theorem init_undefined (s : Solution) (b : Board) (r c : nat) :
  r < 9 → c < 9 →
  (cell b r c = None ∨
   ∃ ch, cell b r c = Some ch ∧ ch ≠ dot ∧
         (nat_of_ascii ch < 49 ∨ 81 ≤ nat_of_ascii ch)) →
  init s b = Undef ∧ solveSudoku s b = Undef.
Proof.
  intros Hr Hc Hbad.
  assert (init s b = Undef) as Hinit.
  { rewrite init_flat.
    apply (for_each_Undef _ _ (r, c)).
    - intros [r' c'] s'. apply init_cell_not_NoFuel.
    - by apply elem_of_all_cells.
    - intros s'. simpl. unfold init_cell.
      destruct Hbad as [Hnone|(ch & Hch & Hne & Hcode)].
      + destruct (read b r c) as [ch| |] eqn:E; simpl; [|done|].
        * apply read_Ret in E. congruence.
        * unfold read, at_ in E. destruct (b !! r) as [row|]; simpl in E; [|done].
          by destruct (row !! c).
      + apply read_Ret in Hch. rewrite Hch. simpl.
        destruct (Ascii.eqb_spec ch dot) as [|_]; [done|].
        unfold shl1. rewrite !decide_False by lia. done. }
  split; [done|]. unfold solveSudoku, solveSudoku_run. by rewrite Hinit.
Qed.

Lemma init_undefined_witness :
  0 < 9 ∧ 2 < 9 ∧
  (cell with_letter 0 2 = None ∨
   ∃ ch, cell with_letter 0 2 = Some ch ∧ ch ≠ dot ∧
         (nat_of_ascii ch < 49 ∨ 81 ≤ nat_of_ascii ch)) ∧
  init fresh with_letter = Undef ∧
  solveSudoku fresh with_letter = Undef.
Proof.
  assert (cell with_letter 0 2 = None ∨
          ∃ ch, cell with_letter 0 2 = Some ch ∧ ch ≠ dot ∧
                (nat_of_ascii ch < 49 ∨ 81 ≤ nat_of_ascii ch)) as Hbad.
  { right. exists "X"%char. split; [reflexivity|]. split; [discriminate|].
    right. vm_compute. lia. }
  split; [lia|]. split; [lia|]. split; [exact Hbad|].
  apply (init_undefined fresh with_letter 0 2); [lia|lia|exact Hbad].
Defined.
